(** * Telegram proxy publisher: the sanitize / deduplicate / publish / archive
      pipeline of [main.py], embedded in Rocq.

    Records are Python dicts decoded from JSON; they are modelled as finite
    maps from field names to JSON scalars.  Python strings are modelled by
    their UTF-8 bytes: every character the cleaning pattern removes is ASCII,
    and an ASCII byte never occurs inside a multi-byte sequence, so filtering
    bytes and filtering code points agree.  Floats and nested containers as
    field values are outside the model. *)

From Stdlib Require Import ZArith Ascii String DecimalString.
From stdpp Require Import gmap strings list fin_maps.

Local Open Scope string_scope.
Local Open Scope Z_scope.
Local Open Scope list_scope.

(** ** 1. Values and records *)

Inductive value : Type :=
  | VNone                (* JSON null, and what [dict.get] gives for a missing key *)
  | VBool (b : bool)
  | VInt (z : Z)
  | VStr (s : string).

#[global] Instance value_eq_dec : EqDecision value.
Proof. solve_decision. Defined.

(** A record is a dict with string keys. *)
Abbreviation record := (gmap string value).

(** [bool(v)]: Python truthiness. *)
Definition truthy (v : value) : bool :=
  match v with
  | VNone => false
  | VBool b => b
  | VInt z => negb (z =? 0)
  | VStr s => negb (String.eqb s "")
  end.

(** [str(v)], which is what an f-string placeholder [{v}] renders. *)
Definition py_str (v : value) : string :=
  match v with
  | VNone => "None"
  | VBool true => "True"
  | VBool false => "False"
  | VInt z => NilZero.string_of_int (Z.to_int z)
  | VStr s => s
  end.

(** [d.get(k)] *)
Definition get (k : string) (d : record) : value :=
  default VNone (d !! k).

(** Hash keys: Python compares set members and dict keys with [==], under
    which [True == 1] and [False == 0]; [None] and strings are equal only to
    themselves. *)
Definition hkey : Type := (unit + Z + string)%type.

Definition hash_key (v : value) : hkey :=
  match v with
  | VNone => inl (inl tt)
  | VBool b => inl (inr (if b then 1 else 0))
  | VInt z => inl (inr z)
  | VStr s => inr s
  end.

(** ** 2. ProxyProcessor *)

(** The characters of the class [invalid_chars_pattern]; character 034 is
    the double quote. *)
Definition invalid_chars : list ascii :=
  String.list_ascii_of_string "@!#$%^&*()+:" ++ ["034"%char] ++
  String.list_ascii_of_string "'[]{}".

(** [re.sub] of a character class by the empty string: drop every listed
    character. *)
Fixpoint re_sub_class (bad : list ascii) (s : string) : string :=
  match s with
  | EmptyString => EmptyString
  | String c rest =>
      if bool_decide (c ∈ bad) then re_sub_class bad rest
      else String c (re_sub_class bad rest)
  end.

Definition _clean_string (input_string : value) : string :=
  match input_string with
  | VStr s => re_sub_class invalid_chars s
  | _ => ""
  end.

(** Step 1 of the loop body: clean the secret field. *)
Definition clean_secret (proxy : record) : record :=
  let original_secret := get "secret" proxy in
  if truthy original_secret
  then <["secret" := VStr (_clean_string original_secret)]> proxy
  else proxy.

(** Step 2: clean the whole tg_link field. *)
Definition clean_tg_link (proxy : record) : record :=
  let original_tg_link := get "tg_link" proxy in
  if truthy original_tg_link
  then <["tg_link" := VStr (_clean_string original_tg_link)]> proxy
  else proxy.

(** The f-string of step 3. *)
Definition link_template (ip port secret : value) : string :=
  "tg://proxy?server=" +:+ py_str ip +:+ "&port=" +:+ py_str port +:+
  "&secret=" +:+ py_str secret.

(** Step 3: rebuild tg_link from the components. *)
Definition rebuild_tg_link (proxy : record) : record :=
  let ip := get "ip" proxy in
  let port := get "port" proxy in
  let secret := get "secret" proxy in
  if truthy ip && truthy port && truthy secret then
    let rebuilt_link := link_template ip port secret in
    if bool_decide (VStr rebuilt_link ≠ get "tg_link" proxy)
    then <["tg_link" := VStr rebuilt_link]> proxy
    else proxy
  else proxy.

(** Steps 1 to 3: the in-place mutation a record undergoes. *)
Definition sanitize (proxy : record) : record :=
  rebuild_tg_link (clean_tg_link (clean_secret proxy)).

(** What the archive path holds on disk. *)
Inductive file_state : Type :=
  | NoFile                          (* the path does not exist *)
  | Unloadable                      (* present, but opening raises IOError or
                                       the text is not JSON: an empty or
                                       cut-short file is such *)
  | Doc (entries : list record).    (* a JSON list of objects *)

(** The set comprehension of [_load_archive]; both failure modes fall back
    to the empty set. *)
Definition _load_archive (archive : file_state) : gset hkey :=
  match archive with
  | NoFile => ∅
  | Unloadable => ∅
  | Doc archive_data =>
      list_to_set
        (hash_key <$> filter (λ v, truthy v = true) (get "tg_link" <$> archive_data))
  end.

(** One iteration of the loop of [find_new_proxies], on the pair
    (new_proxies, seen_links_in_this_run).  The fetched records come out of
    JSON decoding, so they are distinct objects: mutating one in place is
    replacing it by its sanitized form. *)
Definition filter_step (archived_links : gset hkey)
    (st : list record * gset hkey) (proxy : record) : list record * gset hkey :=
  let proxy := sanitize proxy in
  let final_tg_link := get "tg_link" proxy in
  if negb (truthy final_tg_link) then st
  else if bool_decide (hash_key final_tg_link ∉ archived_links)
          && bool_decide (hash_key final_tg_link ∉ st.2)
       then (st.1 ++ [proxy], st.2 ∪ {[hash_key final_tg_link]})
       else st.

Definition find_new_proxies (archive : file_state) (fetched_proxies : list record)
    : list record :=
  (foldl (filter_step (_load_archive archive)) ([], ∅) fetched_proxies).1.

(** ** 3. RuntimeManager *)

(** Times are counted in whole ticks of the clock. *)

Record RuntimeManager : Type := {
  start_time : Z;
  max_seconds : Z;
  time_exceeded : bool
}.

(** [is_time_exceeded]; [now] is what [time.time()] answers when the method
    gets to call it (it does not once the flag is set).  Returns the answer
    and the object after the call. *)
Definition is_time_exceeded (now : Z) (self : RuntimeManager) : bool * RuntimeManager :=
  if time_exceeded self then (true, self)
  else
    let elapsed_time := now - start_time self in
    if elapsed_time >? max_seconds self
    then (true, {| start_time := start_time self;
                   max_seconds := max_seconds self;
                   time_exceeded := true |})
    else (false, self).

(** Successive polls of one manager, one clock reading per call. *)
Fixpoint polls (self : RuntimeManager) (clock : list Z) : list bool :=
  match clock with
  | [] => []
  | now :: later =>
      let r := is_time_exceeded now self in
      r.1 :: polls r.2 later
  end.

(** ** 4. TelegramPoster *)

Inductive exn : Type :=
  | ValueError       (* range() with step zero, sleep() of a negative length *)
  | LookupError.     (* KeyError / IndexError / TypeError on a malformed body *)

Inductive result (A : Type) : Type :=
  | Returned (a : A)
  | Raised (e : exn).
Arguments Returned {A} a.
Arguments Raised {A} e.

(** What the messaging API answers to the album request. *)
Inductive album_outcome : Type :=
  | AlbumHttpError            (* transport error or non-2xx: RequestException *)
  | AlbumNoResult             (* 2xx whose body has no truthy ok and result *)
  | AlbumMalformed            (* 2xx, ok, but result[0].message_id is not there *)
  | AlbumSent (message_id : Z).

(** What it answers to the reply request. *)
Inductive reply_outcome : Type :=
  | ReplyHttpError
  | ReplySent.

(** The world a run of the poster meets, indexed by chunk number (from 0):
    the clock reading at each of the two budget checks, the QR renderer (a
    function from text to PNG bytes that may fail), and the answers of the
    messaging API to the album and reply requests of each chunk. *)
Record Env : Type := {
  now_before : nat → Z;
  now_after : nat → Z;
  qr_make : value → option string;
  album : nat → album_outcome;
  reply : nat → reply_outcome
}.

(** [QRCodeGenerator.generate] *)
Definition generate (E : Env) (data : value) : option string :=
  if negb (truthy data) then None else qr_make E data.

(** The first loop of [_post_chunk_with_qrcodes], from position [i] on:
    the list of (file_key, image) to upload. *)
Fixpoint files_to_upload (E : Env) (i : nat) (proxies_chunk : list record)
    : list (string * string) :=
  match proxies_chunk with
  | [] => []
  | proxy :: rest =>
      let tg_link := get "tg_link" proxy in
      if negb (truthy tg_link) then files_to_upload E (S i) rest
      else match generate E tg_link with
           | None => files_to_upload E (S i) rest
           | Some qr_buffer =>
               ("qr_code_" +:+ py_str (VInt (Z.of_nat i)), qr_buffer)
               :: files_to_upload E (S i) rest
           end
  end.

(** [_post_chunk_with_qrcodes] for chunk number [n]. *)
Definition _post_chunk_with_qrcodes (E : Env) (n : nat) (proxies_chunk : list record)
    : result bool :=
  match proxies_chunk with
  | [] => Returned false
  | _ =>
    match files_to_upload E 0 proxies_chunk with
    | [] => Returned false
    | _ =>
      match album E n with
      | AlbumHttpError => Returned false
      | AlbumNoResult => Returned false
      | AlbumMalformed => Raised LookupError
      | AlbumSent reply_to_message_id =>
          match reply E n with
          | ReplyHttpError => Returned false
          | ReplySent => Returned true
          end
      end
    end
  end.

(** [range(start, stop, step)], elements in order; [None] is the ValueError
    of a zero step.  [fuel] bounds the number of elements. *)
Fixpoint range_go (fuel : nat) (i stop step : Z) : list Z :=
  match fuel with
  | O => []
  | S fuel' =>
      if (if 0 <? step then i <? stop else stop <? i)
      then i :: range_go fuel' (i + step) stop step
      else []
  end.

Definition py_range (start stop step : Z) : option (list Z) :=
  if step =? 0 then None
  else Some (range_go (Z.to_nat (Z.abs (stop - start))) start stop step).

(** [len(l)] as a Python integer. *)
Definition len {A} (l : list A) : Z := Z.of_nat (length l).

(** [l[i:j]] for bounds that are not negative, as they are in [post_all]. *)
Definition py_slice {A} (l : list A) (i j : Z) : list A :=
  take (Z.to_nat j - Z.to_nat i)%nat (drop (Z.to_nat i) l).

(** What a run of [post_all] does that can be observed from outside. *)
Inductive event : Type :=
  | EvAttempt (n : nat) (chunk : list record) (r : result bool)
      (* the call of _post_chunk_with_qrcodes on chunk number n, and its outcome *)
  | EvSkipped          (* warning: failed to post chunk, skipping to next *)
  | EvSleep (d : Z)    (* time.sleep(delay_seconds) *)
  | EvStop             (* warning: stopping, budget check at the top of the loop *)
  | EvStopBeforeDelay. (* warning: stopping, budget check before the delay *)

Definition run (A : Type) : Type := (RuntimeManager * list event * result A)%type.

(** Put events that already happened in front of the rest of a run. *)
Definition after {A} (evs : list event) (r : run A) : run A :=
  (r.1.1, evs ++ r.1.2, r.2).

(** The for loop of [post_all] over the remaining indices [idxs]. *)
Fixpoint post_loop (E : Env) (proxies_per_post delay_seconds : Z)
    (proxies_to_post : list record) (idxs : list Z)
    (posted_proxies : list record) (runtime : RuntimeManager)
    : run (list record) :=
  match idxs with
  | [] => (runtime, [], Returned posted_proxies)
  | i :: rest =>
      let n := Z.to_nat (i / proxies_per_post) in
      let check := is_time_exceeded (now_before E n) runtime in
      if check.1 then (check.2, [EvStop], Returned posted_proxies)
      else
        let chunk := py_slice proxies_to_post i (i + proxies_per_post) in
        let success := _post_chunk_with_qrcodes E n chunk in
        match success with
        | Raised e => (check.2, [EvAttempt n chunk success], Raised e)
        | Returned true =>
            let posted_proxies := posted_proxies ++ chunk in
            if i + proxies_per_post <? len proxies_to_post then
              let check2 := is_time_exceeded (now_after E n) check.2 in
              if check2.1
              then (check2.2, [EvAttempt n chunk success; EvStopBeforeDelay],
                    Returned posted_proxies)
              else if delay_seconds <? 0
              then (check2.2, [EvAttempt n chunk success], Raised ValueError)
              else after [EvAttempt n chunk success; EvSleep delay_seconds]
                     (post_loop E proxies_per_post delay_seconds proxies_to_post
                        rest posted_proxies check2.2)
            else after [EvAttempt n chunk success]
                   (post_loop E proxies_per_post delay_seconds proxies_to_post
                      rest posted_proxies check.2)
        | Returned false =>
            after [EvAttempt n chunk success; EvSkipped]
              (post_loop E proxies_per_post delay_seconds proxies_to_post
                 rest posted_proxies check.2)
        end
  end.

Definition post_all (E : Env) (proxies_per_post delay_seconds : Z)
    (proxies_to_post : list record) (runtime : RuntimeManager)
    : run (list record) :=
  match proxies_to_post with
  | [] => (runtime, [], Returned [])
  | _ =>
      match py_range 0 (len proxies_to_post) proxies_per_post with
      | None => (runtime, [], Raised ValueError)
      | Some idxs =>
          post_loop E proxies_per_post delay_seconds proxies_to_post idxs [] runtime
      end
  end.

(** ** 5. ArchiveManager *)

(** A Python dict keeps its keys in insertion order; assigning to a key that
    is already there replaces the value where it stands. *)
Fixpoint dict_set (k : hkey) (v : record) (d : list (hkey * record))
    : list (hkey * record) :=
  match d with
  | [] => [(k, v)]
  | (k', v') :: d' =>
      if decide (k = k') then (k', v) :: d' else (k', v') :: dict_set k v d'
  end.

(** The dict comprehension keyed by [p['tg_link']], continued from [d];
    [None] is the KeyError of a record without that key. *)
Fixpoint dict_by_link (d : list (hkey * record)) (l : list record)
    : option (list (hkey * record)) :=
  match l with
  | [] => Some d
  | p :: l' =>
      match p !! "tg_link" with
      | None => None
      | Some link => dict_by_link (dict_set (hash_key link) p d) l'
      end
  end.

(** [final_archive] of [update_archive]. *)
Definition merge_archive (existing_proxies posted_proxies : list record)
    : option (list record) :=
  let updated_archive := existing_proxies ++ posted_proxies in
  (λ d, d.*2) <$> dict_by_link [] updated_archive.

(** What [update_archive] does to the disk, step by step. *)
Inductive fs_op : Type :=
  | OpMkdir                        (* parent.mkdir(parents=True, exist_ok=True) *)
  | OpOpenWrite                    (* open(path, 'w'): create, or cut to length zero *)
  | OpDump (doc : list record).    (* json.dump into the open file, then close *)

Definition apply_op (f : file_state) (op : fs_op) : file_state :=
  match op with
  | OpMkdir => f
  | OpOpenWrite => Unloadable
  | OpDump doc => Doc doc
  end.

Definition apply_ops (ops : list fs_op) (f : file_state) : file_state :=
  foldl apply_op f ops.

(** [existing_proxies] as [update_archive] reads it: empty when the file is
    absent, and empty with a logged error when it cannot be read or parsed. *)
Definition existing_proxies (archive : file_state) : list record :=
  match archive with
  | Doc entries => entries
  | NoFile => []
  | Unloadable => []
  end.

(** [update_archive]: the disk steps it takes and how it ends.  [writable]
    tells whether opening the archive for writing is allowed; when it is not
    the IOError is caught and logged.  Creating the parent directory is
    taken to succeed. *)
Definition update_archive (posted_proxies : list record)
    (archive : file_state) (writable : bool) : list fs_op * result unit :=
  match posted_proxies with
  | [] => ([], Returned tt)
  | _ =>
      match merge_archive (existing_proxies archive) posted_proxies with
      | None => ([OpMkdir], Raised LookupError)
      | Some final_archive =>
          if writable then ([OpMkdir; OpOpenWrite; OpDump final_archive], Returned tt)
          else ([OpMkdir], Returned tt)
      end
  end.

(** The states the archive file can be left in if the process dies after
    any number of the steps.  A dump that is cut short leaves the file as
    the opening left it, unloadable. *)
Definition crash_states (ops : list fs_op) (f : file_state) : list file_state :=
  (λ n, apply_ops (take n ops) f) <$> seq 0 (S (length ops)).

(** ** 6. Reference formulations used by the statements below *)

(** The link a record carries, as a hash key. *)
Definition link_key (p : record) : hkey := hash_key (get "tg_link" p).

(** A record has a usable link when the field is truthy. *)
Definition has_link (p : record) : Prop := truthy (get "tg_link" p) = true.

#[global] Instance has_link_dec (p : record) : Decision (has_link p).
Proof. unfold has_link. apply _. Defined.

(** Deduplication as the specification words it: walking the cleaned
    records in fetch order, a record is kept when its link is not archived
    and no earlier record of the walk carried the same link. *)
Fixpoint first_occurrences (archived earlier : gset hkey) (cleaned : list record)
    : list record :=
  match cleaned with
  | [] => []
  | p :: rest =>
      if bool_decide (link_key p ∉ archived) && bool_decide (link_key p ∉ earlier)
      then p :: first_occurrences archived (earlier ∪ {[link_key p]}) rest
      else first_occurrences archived (earlier ∪ {[link_key p]}) rest
  end.

(** Crash safety of a sequence of disk steps: whenever the process dies,
    the file holds either what it held before or the complete new content. *)
Definition crash_safe (ops : list fs_op) (f : file_state) : Prop :=
  ∀ s, s ∈ crash_states ops f → s = f ∨ s = apply_ops ops f.

(** The chunks a trace shows as attempted, in order. *)
Definition attempted (tr : list event) : list (list record) :=
  omap (λ e, match e with EvAttempt _ chunk _ => Some chunk | _ => None end) tr.

(** The chunks a trace shows as posted with success, in order. *)
Definition successful (tr : list event) : list (list record) :=
  omap (λ e, match e with
             | EvAttempt _ chunk (Returned true) => Some chunk
             | _ => None
             end) tr.

(** ceil(n / k) for a positive k. *)
Definition ceil_div (n k : Z) : Z :=
  if n mod k =? 0 then n / k else n / k + 1.

(** Two events follow one another somewhere in a trace. *)
Definition adjacent (a b : event) (tr : list event) : Prop :=
  ∃ pre post, tr = pre ++ a :: b :: post.

(** The dict of the merge is well formed when its keys are pairwise distinct
    and every entry is filed under the link it carries. *)
Definition dict_wf (d : list (hkey * record)) : Prop :=
  NoDup d.*1 ∧ Forall (λ kv, kv.1 = link_key kv.2) d.

(** Chunk number [n] of a list cut in chunks of [k] records. *)
Definition chunk (k : Z) (l : list record) (n : nat) : list record :=
  take (Z.to_nat k) (drop (n * Z.to_nat k) l).

(** The indices of chunks [a], [a+1], ..., [a+m-1]. *)
Definition chunk_starts (k : Z) (a m : nat) : list Z :=
  (λ j, Z.of_nat j * k) <$> seq a m.

(** The budget is never exceeded in the world [E]: the flag is not set and
    no clock reading is past the limit. *)
Definition within_budget (E : Env) (runtime : RuntimeManager) : Prop :=
  time_exceeded runtime = false ∧
  ∀ n, now_before E n - start_time runtime ≤ max_seconds runtime ∧
       now_after E n - start_time runtime ≤ max_seconds runtime.

(** A trace starts with a budget stop or an attempt, if it starts at all. *)
Definition head_ok (tr : list event) : Prop :=
  match tr with
  | [] | EvStop :: _ | EvAttempt _ _ _ :: _ => True
  | _ => False
  end.

(** Which event may follow which, for chunk size [k], delay [d] and [size]
    records to post. *)
Definition pair_ok (k d size : Z) (a b : event) : Prop :=
  match a, b with
  | EvAttempt n _ (Returned true), EvSleep d' =>
      d' = d ∧ (Z.of_nat n + 1) * k < size
  | EvAttempt n _ (Returned true), EvStopBeforeDelay =>
      (Z.of_nat n + 1) * k < size
  | EvAttempt n _ (Returned true), (EvAttempt _ _ _ | EvStop) =>
      size ≤ (Z.of_nat n + 1) * k
  | EvAttempt _ _ (Returned false), EvSkipped => True
  | (EvSkipped | EvSleep _), (EvAttempt _ _ _ | EvStop) => True
  | _, _ => False
  end.

(** The chunks of a list, in input order: ceil(len / k) of them. *)
Definition chunks_of (k : Z) (l : list record) : list (list record) :=
  chunk k l <$> seq 0 (Z.to_nat (ceil_div (len l) k)).

(** A field value that cleaning leaves alone: falsy, or a string free of
    forbidden characters. *)
Definition clean_or_falsy (v : value) : Prop :=
  truthy v = false ∨ ∃ s, v = VStr s ∧ re_sub_class invalid_chars s = s.

(** A record in the form the three sanitize steps produce. *)
Definition sanitized (q : record) : Prop :=
  clean_or_falsy (get "secret" q) ∧
  if truthy (get "ip" q) && truthy (get "port" q) && truthy (get "secret" q)
  then get "tg_link" q =
       VStr (link_template (get "ip" q) (get "port" q) (get "secret" q))
  else clean_or_falsy (get "tg_link" q).

(** ** 7. Sample data *)

(** A record with every component, a secret to clean and a stale link. *)
Definition full_record : record :=
  <["ip" := VStr "1.2.3.4"]> (<["port" := VInt 443]>
  (<["secret" := VStr "abc@!"]> (<["tg_link" := VStr "stale"]> ∅))).

(** A record without ip that carries a link. *)
Definition link_only_record : record :=
  <["port" := VInt 443]> (<["secret" := VStr "abc"]>
  (<["tg_link" := VStr "tg://proxy?server=1.2.3.4&port=443&secret=abc"]> ∅)).

(** A record without ip and without link. *)
Definition bare_record : record :=
  <["port" := VInt 443]> (<["secret" := VStr "abc"]> ∅).

(** A record as the poster and the archive see it: a link and a country. *)
Definition linked (link country : string) : record :=
  <["tg_link" := VStr link]> (<["country_name" := VStr country]> ∅).

Definition fresh_manager : RuntimeManager :=
  {| start_time := 0; max_seconds := 3300; time_exceeded := false |}.

(** A world where the clock stands still and every request succeeds. *)
Definition calm_world : Env :=
  {| now_before := λ _, 0; now_after := λ _, 0;
     qr_make := λ _, Some "png";
     album := λ _, AlbumSent 101;
     reply := λ _, ReplySent |}.

(** The same world, but every reply request fails with an HTTP error. *)
Definition reply_fails_world : Env :=
  {| now_before := λ _, 0; now_after := λ _, 0;
     qr_make := λ _, Some "png";
     album := λ _, AlbumSent 101;
     reply := λ _, ReplyHttpError |}.

(** The calm world, but no QR code can be made for the link tg://b. *)
Definition qr_fails_world : Env :=
  {| now_before := λ _, 0; now_after := λ _, 0;
     qr_make := λ v, if decide (v = VStr "tg://b") then None else Some "png";
     album := λ _, AlbumSent 101;
     reply := λ _, ReplySent |}.

Definition five_records : list record :=
  [linked "tg://a" "A"; linked "tg://b" "B"; linked "tg://c" "C";
   linked "tg://d" "D"; linked "tg://e" "E"].

(** * Properties *)

(** ** Field access *)

Lemma get_insert_eq (k : string) (v : value) (p : record) :
  get k (<[k := v]> p) = v.
Proof. unfold get. by rewrite lookup_insert_eq. Qed.

Lemma get_insert_ne (k k' : string) (v : value) (p : record) :
  k ≠ k' → get k' (<[k := v]> p) = get k' p.
Proof. intros Hne. unfold get. by rewrite lookup_insert_ne. Qed.

Lemma truthy_str (s : string) : truthy (VStr s) = true ↔ s ≠ "".
Proof.
  simpl. destruct (String.eqb_spec s ""); simpl; split; congruence.
Qed.

Lemma clean_falsy (v : value) : truthy v = false → _clean_string v = "".
Proof.
  destruct v as [|b|z|s]; simpl; try done.
  destruct (String.eqb_spec s ""); simpl; [by intros _; subst | done].
Qed.

(** ** Steps 1 and 2 *)

Lemma get_clean_secret_other (k : string) (p : record) :
  k ≠ "secret" → get k (clean_secret p) = get k p.
Proof.
  intros Hne. unfold clean_secret.
  destruct (truthy (get "secret" p)); [|done].
  by apply get_insert_ne.
Qed.

Lemma get_clean_tg_link_other (k : string) (p : record) :
  k ≠ "tg_link" → get k (clean_tg_link p) = get k p.
Proof.
  intros Hne. unfold clean_tg_link.
  destruct (truthy (get "tg_link" p)); [|done].
  by apply get_insert_ne.
Qed.

(** After step 1 the secret field is truthy exactly when the cleaned secret
    is not empty, and then it holds the cleaned secret. *)
Lemma cleaned_secret_truthy (p : record) :
  truthy (get "secret" (clean_secret p)) = true ↔
  _clean_string (get "secret" p) ≠ "".
Proof.
  unfold clean_secret. destruct (truthy (get "secret" p)) eqn:Ht.
  - rewrite get_insert_eq. apply truthy_str.
  - rewrite Ht. rewrite (clean_falsy _ Ht). split; [discriminate | done].
Qed.

Lemma cleaned_secret_value (p : record) :
  _clean_string (get "secret" p) ≠ "" →
  get "secret" (clean_secret p) = VStr (_clean_string (get "secret" p)).
Proof.
  intros Hne. unfold clean_secret.
  destruct (truthy (get "secret" p)) eqn:Ht.
  - by rewrite get_insert_eq.
  - by rewrite (clean_falsy _ Ht) in Hne.
Qed.

(** After step 2 the link field is truthy exactly when the cleaned input
    link is not empty. *)
Lemma cleaned_link_truthy (p : record) :
  truthy (get "tg_link" (clean_tg_link p)) = true ↔
  _clean_string (get "tg_link" p) ≠ "".
Proof.
  unfold clean_tg_link. destruct (truthy (get "tg_link" p)) eqn:Ht.
  - rewrite get_insert_eq. apply truthy_str.
  - rewrite Ht. rewrite (clean_falsy _ Ht). split; [discriminate | done].
Qed.

(** ** Step 3 *)

Lemma get_rebuild_tg_link (p : record) :
  get "tg_link" (rebuild_tg_link p) =
  if truthy (get "ip" p) && truthy (get "port" p) && truthy (get "secret" p)
  then VStr (link_template (get "ip" p) (get "port" p) (get "secret" p))
  else get "tg_link" p.
Proof.
  unfold rebuild_tg_link.
  destruct (truthy (get "ip" p) && truthy (get "port" p) && truthy (get "secret" p));
    [|done].
  case_bool_decide as Hd.
  - by rewrite get_insert_eq.
  - done.
Qed.

Lemma get_rebuild_other (k : string) (p : record) :
  k ≠ "tg_link" → get k (rebuild_tg_link p) = get k p.
Proof.
  intros Hne. unfold rebuild_tg_link.
  destruct (truthy (get "ip" p) && truthy (get "port" p) && truthy (get "secret" p));
    [|done].
  case_bool_decide; [|done]. by apply get_insert_ne.
Qed.

(** How the three steps read the components. *)
Lemma sanitize_components (p : record) :
  get "ip" (clean_tg_link (clean_secret p)) = get "ip" p ∧
  get "port" (clean_tg_link (clean_secret p)) = get "port" p ∧
  get "secret" (clean_tg_link (clean_secret p)) = get "secret" (clean_secret p) ∧
  get "tg_link" (clean_tg_link (clean_secret p)) = get "tg_link" (clean_tg_link p).
Proof.
  repeat split.
  - rewrite get_clean_tg_link_other, get_clean_secret_other; done.
  - rewrite get_clean_tg_link_other, get_clean_secret_other; done.
  - rewrite get_clean_tg_link_other; done.
  - unfold clean_tg_link. rewrite !(get_clean_secret_other "tg_link") by done.
    destruct (truthy (get "tg_link" p)); [by rewrite !get_insert_eq|].
    by rewrite get_clean_secret_other.
Qed.

(** C1. For every record whose ip, port and cleaned secret are all present
    and non-empty (in the sense of Python truthiness: None, the empty string,
    0 and False do not count), the sanitize steps leave in tg_link exactly
    the template applied to ip, port and the cleaned secret.  The right-hand
    side does not mention the link the record carried on input: whatever it
    was, it is overwritten.  The components themselves are as on input,
    the secret cleaned. *)
Theorem sanitize_rebuilds_canonical_link (proxy : record) :
  truthy (get "ip" proxy) = true →
  truthy (get "port" proxy) = true →
  _clean_string (get "secret" proxy) ≠ "" →
  sanitize proxy !! "tg_link" =
    Some (VStr ("tg://proxy?server=" +:+ py_str (get "ip" proxy) +:+
                "&port=" +:+ py_str (get "port" proxy) +:+
                "&secret=" +:+ _clean_string (get "secret" proxy))) ∧
  get "ip" (sanitize proxy) = get "ip" proxy ∧
  get "port" (sanitize proxy) = get "port" proxy ∧
  get "secret" (sanitize proxy) = VStr (_clean_string (get "secret" proxy)).
Proof.
  intros Hip Hport Hsec.
  destruct (sanitize_components proxy) as (Ei & Ep & Es & _).
  assert (Hget : get "tg_link" (sanitize proxy) =
    VStr (link_template (get "ip" proxy) (get "port" proxy)
            (VStr (_clean_string (get "secret" proxy))))).
  { unfold sanitize. rewrite get_rebuild_tg_link, Ei, Ep, Es.
    rewrite Hip, Hport. rewrite (proj2 (cleaned_secret_truthy proxy) Hsec).
    simpl. by rewrite cleaned_secret_value. }
  split; [|unfold sanitize; rewrite !get_rebuild_other by done;
           rewrite Ei, Ep, Es; by rewrite cleaned_secret_value].
  unfold get in Hget. destruct (sanitize proxy !! "tg_link") as [v|]; simpl in Hget.
  - by rewrite Hget.
  - discriminate.
Qed.

(** ** The filter loop *)

(** A record whose link is not usable after the three steps leaves the
    loop state as it was. *)
Lemma filter_step_skip (A : gset hkey) (st : list record * gset hkey) (p : record) :
  truthy (get "tg_link" (sanitize p)) = false → filter_step A st p = st.
Proof. intros H. unfold filter_step. by rewrite H. Qed.

(** The set of seen links is the set of links of the accepted records. *)
Lemma seen_links_accepted (A : gset hkey) (l : list record) :
  (foldl (filter_step A) ([], ∅) l).2 =
  list_to_set (link_key <$> (foldl (filter_step A) ([], ∅) l).1).
Proof.
  induction l as [|p l IH] using rev_ind; [done|].
  rewrite foldl_app. simpl.
  set (st := foldl (filter_step A) ([], ∅) l) in *.
  unfold filter_step.
  destruct (negb (truthy (get "tg_link" (sanitize p)))); [done|].
  destruct (bool_decide _ && bool_decide _); [|done].
  simpl. rewrite fmap_app, list_to_set_app_L, IH. simpl.
  unfold link_key. set_solver.
Qed.

Lemma sanitize_link_without_components (p : record) :
  truthy (get "ip" p) = false ∨ truthy (get "port" p) = false ∨
    _clean_string (get "secret" p) = "" →
  get "tg_link" (sanitize p) = get "tg_link" (clean_tg_link p).
Proof.
  intros Hmiss.
  destruct (sanitize_components p) as (Ei & Ep & Es & El).
  unfold sanitize. rewrite get_rebuild_tg_link, Ei, Ep, Es, El.
  destruct (truthy (get "secret" (clean_secret p))) eqn:Hs.
  - apply cleaned_secret_truthy in Hs.
    destruct Hmiss as [-> | [-> | Hc]]; [done | by rewrite andb_false_r | done].
  - by rewrite andb_false_r.
Qed.

(** C2, as amended.  For every record that is missing ip, or missing port,
    or whose cleaned secret is empty, the sanitize steps rebuild nothing:
    the record has a usable link exactly when its input link, with the
    forbidden characters stripped, is not empty, and that cleaned input link
    is then the link it keeps.  When the cleaned input link is absent or
    empty, the record contributes nothing to the output of find_new_proxies,
    wherever it stands in the fetched list and whatever the archive holds. *)
Theorem no_components_no_link_excluded (proxy : record) :
  truthy (get "ip" proxy) = false ∨ truthy (get "port" proxy) = false ∨
    _clean_string (get "secret" proxy) = "" →
  (has_link (sanitize proxy) ↔ _clean_string (get "tg_link" proxy) ≠ "") ∧
  (_clean_string (get "tg_link" proxy) ≠ "" →
     get "tg_link" (sanitize proxy) = VStr (_clean_string (get "tg_link" proxy))) ∧
  (_clean_string (get "tg_link" proxy) = "" →
     ∀ (archive : file_state) (before later : list record),
       find_new_proxies archive (before ++ proxy :: later) =
       find_new_proxies archive (before ++ later)).
Proof.
  intros Hmiss.
  pose proof (sanitize_link_without_components proxy Hmiss) as Hsame.
  assert (Hiff : has_link (sanitize proxy) ↔ _clean_string (get "tg_link" proxy) ≠ "").
  { unfold has_link. rewrite Hsame. apply cleaned_link_truthy. }
  split_and!; [done | |].
  - intros Hne. rewrite Hsame. unfold clean_tg_link.
    destruct (truthy (get "tg_link" proxy)) eqn:Ht.
    + by rewrite get_insert_eq.
    + by rewrite (clean_falsy _ Ht) in Hne.
  - intros Hempty archive before later. unfold find_new_proxies.
    rewrite !foldl_app. simpl. rewrite filter_step_skip; [done|].
    destruct (truthy (get "tg_link" (sanitize proxy))) eqn:Ht; [|done].
    by apply Hiff in Ht.
Qed.

(** ** Deduplication *)

Lemma filter_step_cases (A : gset hkey) (st : list record * gset hkey) (p : record) :
  filter_step A st p =
  if decide (has_link (sanitize p) ∧ (link_key (sanitize p) ∉ A)
             ∧ link_key (sanitize p) ∉ st.2)
  then (st.1 ++ [sanitize p], st.2 ∪ {[link_key (sanitize p)]})
  else st.
Proof.
  unfold filter_step. case_decide as H.
  - destruct H as (Hl & HA & Hs). unfold has_link in Hl. rewrite Hl. simpl.
    unfold link_key in *. by rewrite !bool_decide_eq_true_2 by done.
  - destruct (truthy (get "tg_link" (sanitize p))) eqn:Ht; simpl; [|done].
    repeat case_bool_decide; simpl; try done.
    exfalso. apply H. done.
Qed.

Lemma fold_first_occurrences (A : gset hkey) (l : list record) :
  ∀ (new : list record) (seen earlier : gset hkey),
    (∀ k, k ∉ A → (k ∈ seen ↔ k ∈ earlier)) →
    (foldl (filter_step A) (new, seen) l).1 =
    new ++ first_occurrences A earlier (filter has_link (sanitize <$> l)).
Proof.
  induction l as [|p l IH]; intros new seen earlier Hinv; simpl.
  { by rewrite app_nil_r. }
  rewrite filter_step_cases. simpl.
  destruct (decide (has_link (sanitize p))) as [Hl|Hl].
  - rewrite filter_cons_True by done. simpl.
    destruct (decide (link_key (sanitize p) ∈ A)) as [HA|HA].
    + rewrite decide_False by naive_solver.
      rewrite bool_decide_eq_false_2 by naive_solver. simpl.
      apply IH. intros k Hk. rewrite Hinv by done. set_solver.
    + destruct (decide (link_key (sanitize p) ∈ seen)) as [Hs|Hs].
      * rewrite decide_False by naive_solver.
        rewrite (bool_decide_eq_false_2 (_ ∉ earlier))
          by (rewrite <- Hinv by done; naive_solver).
        rewrite andb_false_r.
        apply IH. intros k Hk. rewrite Hinv by done.
        apply Hinv in Hs; [|done]. set_solver.
      * rewrite decide_True by done.
        rewrite !bool_decide_eq_true_2; [|by rewrite <- Hinv|done]. simpl.
        rewrite (IH _ _ (earlier ∪ {[link_key (sanitize p)]})).
        { by rewrite <- app_assoc. }
        intros k Hk. rewrite !elem_of_union, Hinv by done. done.
  - rewrite filter_cons_False by done.
    rewrite decide_False by naive_solver. by apply IH.
Qed.

Lemma find_new_proxies_snoc_cases (archive : file_state) (l : list record) (p : record) :
  find_new_proxies archive (l ++ [p]) =
  if decide (has_link (sanitize p)
             ∧ (link_key (sanitize p) ∉ _load_archive archive)
             ∧ link_key (sanitize p) ∉ (link_key <$> find_new_proxies archive l))
  then find_new_proxies archive l ++ [sanitize p]
  else find_new_proxies archive l.
Proof.
  unfold find_new_proxies. rewrite foldl_app. simpl.
  rewrite filter_step_cases, seen_links_accepted.
  set (out := (foldl (filter_step (_load_archive archive)) ([], ∅) l).1).
  destruct (decide (has_link (sanitize p) ∧ _ ∧ _ ∉ (list_to_set (link_key <$> out) : gset hkey)))
    as [H|H].
  - rewrite decide_True; [done|]. set_solver.
  - rewrite decide_False; [done|]. set_solver.
Qed.

Lemma find_new_proxies_links (archive : file_state) (fetched : list record) :
  NoDup (link_key <$> find_new_proxies archive fetched) ∧
  ∀ p, p ∈ find_new_proxies archive fetched →
       has_link p ∧ link_key p ∉ _load_archive archive.
Proof.
  induction fetched as [|q l [IHn IHp]] using rev_ind.
  { split; [constructor | by intros p Hp%elem_of_nil]. }
  rewrite find_new_proxies_snoc_cases.
  case_decide as Hd; [|done].
  destruct Hd as (Hl & HA & Hs). split.
  - rewrite fmap_app. apply NoDup_app. split_and!; [done| |apply NoDup_singleton].
    intros k Hk Hk'. apply list_elem_of_singleton in Hk'. by subst.
  - intros p' [Hp'|Hp']%elem_of_app; [by apply IHp|].
    apply list_elem_of_singleton in Hp'. by subst.
Qed.


(** ** The time budget *)

Lemma is_time_exceeded_latches (now : Z) (self : RuntimeManager) :
  (is_time_exceeded now self).1 = true →
  time_exceeded (is_time_exceeded now self).2 = true.
Proof.
  unfold is_time_exceeded. destruct (time_exceeded self) eqn:Hl; simpl; [done|].
  destruct (now - start_time self >? max_seconds self); simpl; done.
Qed.

Lemma is_time_exceeded_once_set (now : Z) (self : RuntimeManager) :
  time_exceeded self = true → is_time_exceeded now self = (true, self).
Proof. intros H. unfold is_time_exceeded. by rewrite H. Qed.

Lemma is_time_exceeded_false (now : Z) (self self' : RuntimeManager) :
  is_time_exceeded now self = (false, self') →
  self' = self ∧ time_exceeded self = false ∧
  now - start_time self ≤ max_seconds self.
Proof.
  unfold is_time_exceeded. destruct (time_exceeded self); [done|].
  rewrite Z.gtb_ltb.
  destruct (Z.ltb_spec (max_seconds self) (now - start_time self)); [done|].
  by intros [= <-].
Qed.

Lemma length_polls (self : RuntimeManager) (clock : list Z) :
  length (polls self clock) = length clock.
Proof.
  revert self. induction clock as [|now later IH]; intros self; simpl; [done|].
  by rewrite IH.
Qed.

Lemma polls_once_set (self : RuntimeManager) (clock : list Z) :
  time_exceeded self = true → ∀ j b, polls self clock !! j = Some b → b = true.
Proof.
  intros Hset. induction clock as [|now later IH]; intros j b; simpl; [done|].
  rewrite is_time_exceeded_once_set by done. simpl.
  destruct j as [|j]; simpl; [congruence | apply IH].
Qed.

(** C8. The budget flag is a one-way latch: in any sequence of calls of
    is_time_exceeded on one manager, whatever the clock reads at each call,
    once a call has answered true every later call answers true. *)
Theorem time_budget_latch (self : RuntimeManager) (clock : list Z) (i j : nat) :
  (i ≤ j)%nat → (j < length clock)%nat →
  polls self clock !! i = Some true →
  polls self clock !! j = Some true.
Proof.
  revert self i j. induction clock as [|now later IH]; intros self i j Hij Hj Hi.
  { simpl in Hj. lia. }
  simpl in *. destruct i as [|i], j as [|j]; simpl in *; try done; try lia.
  - injection Hi as Hi. apply is_time_exceeded_latches in Hi.
    destruct (lookup_lt_is_Some_2 (polls (is_time_exceeded now self).2 later) j)
      as [b Hb]; [rewrite length_polls; lia|].
    rewrite Hb. f_equal. eapply polls_once_set; eauto.
  - apply (IH _ i j); [lia | lia | done].
Qed.

(** ** The archive *)

(** C7. With nothing posted, update_archive takes no disk step at all: the
    archive file is neither opened nor written, and holds afterwards what it
    held before, also if the process dies.  The empty list is the only one
    for which no step is taken. *)
Theorem update_archive_nothing_posted (archive : file_state) (writable : bool) :
  update_archive [] archive writable = ([], Returned tt) ∧
  apply_ops (update_archive [] archive writable).1 archive = archive ∧
  crash_states (update_archive [] archive writable).1 archive = [archive] ∧
  ∀ posted, (update_archive posted archive writable).1 = [] ↔ posted = [].
Proof.
  split_and!; [done | done | done |].
  intros posted. split; [|by intros ->].
  unfold update_archive. destruct posted as [|p posted]; [done|].
  destruct (merge_archive _ _); [|done]. by destruct writable.
Qed.

(** ** The merge of update_archive *)

Lemma dict_set_keys (k : hkey) (v : record) (d : list (hkey * record)) :
  (dict_set k v d).*1 = if decide (k ∈ d.*1) then d.*1 else d.*1 ++ [k].
Proof.
  induction d as [|[k' v'] d IH]; [done|]. csimpl.
  destruct (decide (k = k')) as [->|Hne]; csimpl.
  - rewrite decide_True; [done | apply list_elem_of_here].
  - rewrite IH. destruct (decide (k ∈ d.*1)) as [Hin|Hin].
    + rewrite decide_True; [done | by apply list_elem_of_further].
    + rewrite decide_False; [done|]. rewrite elem_of_cons. naive_solver.
Qed.

Lemma elem_of_dict_set (k : hkey) (v : record) (d : list (hkey * record))
    (kv : hkey * record) :
  NoDup d.*1 →
  kv ∈ dict_set k v d ↔ kv = (k, v) ∨ (kv ∈ d ∧ kv.1 ≠ k).
Proof.
  induction d as [|[k' v'] d IH]; simpl; intros Hnd.
  { rewrite list_elem_of_singleton. split; [auto|].
    intros [?|[[]%elem_of_nil _]]; done. }
  apply NoDup_cons in Hnd as [Hk' Hnd].
  destruct (decide (k = k')) as [->|Hne].
  - rewrite !elem_of_cons. split.
    + intros [->|Hin]; [by left|]. right. split; [by right|].
      intros Hk. apply Hk'. rewrite <- Hk. by apply (list_elem_of_fmap_2 fst).
    + intros [->|[[->|Hin] Hk]]; [by left | done | by right].
  - rewrite !elem_of_cons, IH by done. split.
    + intros [->|[->|[Hin Hk]]]; [right; split; [by left|done] | by left |].
      right. split; [by right|done].
    + intros [->|[[->|Hin] Hk]]; [right; by left | by left |].
      right. right. done.
Qed.

Lemma dict_set_wf (v : record) (d : list (hkey * record)) :
  dict_wf d → dict_wf (dict_set (link_key v) v d).
Proof.
  intros [Hnd Hall]. split.
  - rewrite dict_set_keys. case_decide as Hin; [done|].
    apply NoDup_app. split_and!; [done| |apply NoDup_singleton].
    intros x Hx Hx'. apply list_elem_of_singleton in Hx'. by subst.
  - apply Forall_forall. intros kv Hkv.
    apply elem_of_dict_set in Hkv as [->|[Hkv _]]; [done| |done].
    by apply (proj1 (Forall_forall _ _) Hall).
Qed.

Lemma link_key_lookup (p : record) (link : value) :
  p !! "tg_link" = Some link → hash_key link = link_key p.
Proof. intros H. unfold link_key, get. by rewrite H. Qed.

(** What the comprehension leaves in the dict: it never fails when every
    record has the key; the last record of each link is filed under it;
    entries whose link does not come up again stay; nothing else gets in. *)
Lemma dict_by_link_spec (l : list record) :
  ∀ d, dict_wf d → Forall (λ p, is_Some (p !! "tg_link")) l →
  ∃ d', dict_by_link d l = Some d' ∧ dict_wf d' ∧
    (∀ l1 p l2, l = l1 ++ p :: l2 → link_key p ∉ link_key <$> l2 →
                (link_key p, p) ∈ d') ∧
    (∀ kv, kv ∈ d → kv.1 ∉ link_key <$> l → kv ∈ d') ∧
    (∀ kv, kv ∈ d' → kv ∈ d ∨ kv.2 ∈ l).
Proof.
  induction l as [|q l IH]; intros d Hwf Hkeys.
  { exists d. split_and!; try done.
    - intros [|??] ???; done.
    - auto. }
  apply Forall_cons in Hkeys as [[link Hlink] Hkeys]. csimpl. rewrite Hlink.
  rewrite (link_key_lookup _ _ Hlink).
  destruct (IH (dict_set (link_key q) q d)) as (d' & Hd' & Hwf' & Hlast & Hstay & Hfrom);
    [by apply dict_set_wf | done |].
  exists d'. split_and!; try done.
  - intros [|x l1] p l2 Heq Hnot; simplify_eq/=.
    + apply Hstay; [|done]. apply elem_of_dict_set; [apply Hwf | by left].
    + by eapply Hlast.
  - intros kv Hkv Hnot. apply not_elem_of_cons in Hnot as [Hne Hnot].
    apply Hstay; [|done].
    apply elem_of_dict_set; [apply Hwf | by right].
  - intros kv Hkv. apply Hfrom in Hkv as [Hkv|Hkv]; [|right; by right].
    apply elem_of_dict_set in Hkv as [->|[Hkv _]]; [| |apply Hwf].
    + right. by left.
    + by left.
Qed.




Lemma update_archive_steps
    (posted : list record) (archive : file_state) (final : list record) :
  posted ≠ [] →
  merge_archive (existing_proxies archive) posted = Some final →
  update_archive posted archive true =
    ([OpMkdir; OpOpenWrite; OpDump final], Returned tt).
Proof.
  intros Hne Hmerge. unfold update_archive. rewrite Hmerge.
  by destruct posted.
Qed.

(** C6, as amended.  update_archive rewrites the archive file in place:
    when something was posted, the merge succeeds and the file may be
    written, the disk steps are the directory creation, the opening of the
    archive itself for writing, which cuts it to length zero, and the dump
    of the merged list into it.  There is no temporary file and no
    replacement; the run ends with the merged list on disk, but a crash
    between the opening and the end of the dump leaves a file that cannot
    be loaded, whatever it held before. *)
Theorem update_archive_writes_in_place
    (posted : list record) (archive : file_state) (final : list record) :
  posted ≠ [] →
  merge_archive (existing_proxies archive) posted = Some final →
  update_archive posted archive true =
    ([OpMkdir; OpOpenWrite; OpDump final], Returned tt) ∧
  apply_ops (update_archive posted archive true).1 archive = Doc final ∧
  Unloadable ∈ crash_states (update_archive posted archive true).1 archive.
Proof.
  intros Hne Hmerge. rewrite (update_archive_steps _ _ _ Hne Hmerge).
  split_and!; [done | done |].
  unfold crash_states. simpl. rewrite !elem_of_cons. auto.
Qed.

(** ** The range of post_all *)

Lemma ceil_div_nonpos (n k : Z) : 0 < k → n ≤ 0 → ceil_div n k ≤ 0.
Proof.
  intros Hk Hn. unfold ceil_div.
  destruct (Z.eqb_spec (n mod k) 0) as [Hm|Hm].
  - apply Z.div_le_upper_bound; lia.
  - assert (n / k < 0); [|lia].
    apply Z.div_lt_upper_bound; [lia|].
    destruct (Z.eq_dec n 0) as [->|]; [by rewrite Z.mod_0_l in Hm by lia | lia].
Qed.

Lemma ceil_div_step (n k : Z) :
  0 < k → 0 < n → ceil_div n k = 1 + ceil_div (n - k) k ∧ 0 ≤ ceil_div (n - k) k.
Proof.
  intros Hk Hn. unfold ceil_div.
  replace (n - k) with (n + (-1) * k) by lia.
  rewrite Z.mod_add, Z.div_add by lia.
  pose proof (Z.div_pos n k ltac:(lia) Hk).
  destruct (Z.eqb_spec (n mod k) 0) as [Hm|Hm]; [|lia].
  split; [lia|]. assert (n / k ≠ 0); [|lia].
  intros Hz. pose proof (Z.div_mod n k ltac:(lia)). nia.
Qed.

Lemma range_go_spec (step stop : Z) (fuel : nat) :
  0 < step → ∀ i, (Z.to_nat (stop - i) ≤ fuel)%nat →
  range_go fuel i stop step =
  (λ j, i + Z.of_nat j * step) <$> seq 0 (Z.to_nat (ceil_div (stop - i) step)).
Proof.
  intros Hstep. induction fuel as [|fuel IH]; intros i Hfuel; simpl.
  - pose proof (ceil_div_nonpos (stop - i) step Hstep ltac:(lia)).
    by replace (Z.to_nat (ceil_div (stop - i) step)) with 0%nat by lia.
  - rewrite (proj2 (Z.ltb_lt 0 step)) by done.
    destruct (Z.ltb_spec i stop) as [Hlt|Hge].
    + destruct (ceil_div_step (stop - i) step Hstep ltac:(lia)) as [Hc Hpos].
      rewrite Hc, Z2Nat.inj_add, IH by lia. simpl.
      replace (stop - (i + step)) with (stop - i - step) by lia.
      f_equal; [lia|]. rewrite <- fmap_S_seq, <- list_fmap_compose.
      apply list_fmap_ext. intros _ j _. simpl. lia.
    + pose proof (ceil_div_nonpos (stop - i) step Hstep ltac:(lia)).
      by replace (Z.to_nat (ceil_div (stop - i) step)) with 0%nat by lia.
Qed.

Lemma py_range_chunk_starts (size k : Z) :
  0 < k → 0 ≤ size →
  py_range 0 size k = Some (chunk_starts k 0 (Z.to_nat (ceil_div size k))).
Proof.
  intros Hk Hsize. unfold py_range.
  destruct (Z.eqb_spec k 0) as [|_]; [lia|]. f_equal.
  rewrite range_go_spec by lia. rewrite Z.sub_0_r. done.
Qed.

(** ** Traces *)

Lemma adjacent_cons (x y e : event) (tr : list event) :
  adjacent x y (e :: tr) ↔ (x = e ∧ head tr = Some y) ∨ adjacent x y tr.
Proof.
  unfold adjacent. split.
  - intros ([|e' pre] & post & Heq); simplify_eq/=; [by left|].
    right. by exists pre, post.
  - intros [[-> Hhd]|(pre & post & ->)].
    + destruct tr as [|y' tr]; simplify_eq/=. by exists [], tr.
    + by exists (e :: pre), post.
Qed.

Lemma adjacent_nil (x y : event) : ¬ adjacent x y [].
Proof. intros ([|??] & post & Heq); done. Qed.

(** An event that cannot open a trace has a predecessor wherever it is. *)
Lemma event_predecessor (tr pre post : list event) (e : event) :
  head_ok tr → ¬ head_ok [e] → tr = pre ++ e :: post →
  ∃ pre' x, pre = pre' ++ [x] ∧ adjacent x e tr.
Proof.
  intros Hhead He ->. destruct pre as [|x0 pre0] using rev_ind.
  - simpl in *. by destruct e.
  - exists pre0, x0. split; [done|]. exists pre0, post. by rewrite <- app_assoc.
Qed.

Lemma elem_of_successful (tr : list event) (c : list record) :
  c ∈ successful tr ↔ ∃ n, EvAttempt n c (Returned true) ∈ tr.
Proof.
  unfold successful. rewrite list_elem_of_omap. split.
  - intros (e & He & Heq). destruct e as [n c' [[]|]| | | |]; simplify_eq. eauto.
  - intros (n & Hn). by exists (EvAttempt n c (Returned true)).
Qed.

(** ** Chunks *)

Lemma chunk_number (k : Z) (a : nat) :
  0 < k → Z.to_nat (Z.of_nat a * k / k) = a.
Proof. intros Hk. rewrite Z.div_mul by lia. apply Nat2Z.id. Qed.

Lemma py_slice_chunk (k : Z) (l : list record) (a : nat) :
  0 < k → py_slice l (Z.of_nat a * k) (Z.of_nat a * k + k) = chunk k l a.
Proof.
  intros Hk. unfold py_slice, chunk.
  rewrite Z2Nat.inj_add, Z2Nat.inj_mul, Nat2Z.id by lia.
  f_equal. lia.
Qed.

Lemma ceil_div_0 (k : Z) : 0 < k → ceil_div 0 k = 0.
Proof. intros Hk. unfold ceil_div. by rewrite Z.mod_0_l, Z.div_0_l by lia. Qed.

Lemma ceil_div_nonneg (n k : Z) : 0 < k → 0 ≤ n → 0 ≤ ceil_div n k.
Proof.
  intros Hk Hn. unfold ceil_div. pose proof (Z.div_pos n k Hn Hk).
  destruct (n mod k =? 0); lia.
Qed.

Lemma length_chunks_of (k : Z) (l : list record) :
  0 < k → len (chunks_of k l) = ceil_div (len l) k.
Proof.
  intros Hk. unfold chunks_of, len at 1. rewrite length_fmap, length_seq.
  apply Z2Nat.id, ceil_div_nonneg; [done | unfold len; lia].
Qed.

Lemma chunks_of_nil (k : Z) : 0 < k → chunks_of k [] = [].
Proof.
  intros Hk. unfold chunks_of. change (len []) with 0.
  by rewrite ceil_div_0.
Qed.

(** ** The loop of post_all *)

Lemma is_time_exceeded_within (E : Env) (rm : RuntimeManager) (n : nat) :
  within_budget E rm →
  is_time_exceeded (now_before E n) rm = (false, rm) ∧
  is_time_exceeded (now_after E n) rm = (false, rm).
Proof.
  intros [Hflag Hclock]. destruct (Hclock n) as [Hb Ha].
  unfold is_time_exceeded. rewrite Hflag.
  rewrite !Z.gtb_ltb.
  split.
  - destruct (Z.ltb_spec (max_seconds rm) (now_before E n - start_time rm)); [lia|done].
  - destruct (Z.ltb_spec (max_seconds rm) (now_after E n - start_time rm)); [lia|done].
Qed.

Lemma post_chunk_raises (E : Env) (n : nat) (c : list record) (e : exn) :
  _post_chunk_with_qrcodes E n c = Raised e → album E n = AlbumMalformed.
Proof.
  unfold _post_chunk_with_qrcodes. destruct c; [done|].
  destruct (files_to_upload E 0 _); [done|].
  destruct (album E n); try done. by destruct (reply E n).
Qed.

Section PostLoop.
Context (E : Env) (k d : Z) (l : list record).
Hypothesis Hk : 0 < k.

(** One turn of the loop, on chunk number [a]. *)
Lemma post_loop_cons (a : nat) (rest : list Z) (posted : list record)
    (rm : RuntimeManager) :
  post_loop E k d l (Z.of_nat a * k :: rest) posted rm =
  let check := is_time_exceeded (now_before E a) rm in
  if check.1 then (check.2, [EvStop], Returned posted)
  else
    let success := _post_chunk_with_qrcodes E a (chunk k l a) in
    match success with
    | Raised e => (check.2, [EvAttempt a (chunk k l a) success], Raised e)
    | Returned true =>
        if (Z.of_nat a + 1) * k <? len l then
          let check2 := is_time_exceeded (now_after E a) check.2 in
          if check2.1
          then (check2.2, [EvAttempt a (chunk k l a) success; EvStopBeforeDelay],
                Returned (posted ++ chunk k l a))
          else if d <? 0
          then (check2.2, [EvAttempt a (chunk k l a) success], Raised ValueError)
          else after [EvAttempt a (chunk k l a) success; EvSleep d]
                 (post_loop E k d l rest (posted ++ chunk k l a) check2.2)
        else after [EvAttempt a (chunk k l a) success]
               (post_loop E k d l rest (posted ++ chunk k l a) check.2)
    | Returned false =>
        after [EvAttempt a (chunk k l a) success; EvSkipped]
          (post_loop E k d l rest posted check.2)
    end.
Proof.
  simpl. rewrite chunk_number, py_slice_chunk by done.
  replace (Z.of_nat a * k + k) with ((Z.of_nat a + 1) * k) by lia. done.
Qed.

(** Case analysis of one turn of the loop on chunk [a]: budget stop, stop
    before the delay, negative delay, delay and go on, last chunk posted,
    failed chunk, exception. *)
Ltac loop_turn a rm :=
  rewrite post_loop_cons; cbv zeta;
  let rm1 := fresh "rm1" in let rm2 := fresh "rm2" in
  let Hc1 := fresh "Hc1" in let Hc2 := fresh "Hc2" in
  let Hp := fresh "Hp" in let Hlast := fresh "Hlast" in let Hd := fresh "Hd" in
  destruct (is_time_exceeded (now_before E a) rm) as [[] rm1] eqn:Hc1; simpl;
  [| destruct (_post_chunk_with_qrcodes E a (chunk k l a)) as [[]|?] eqn:Hp; simpl;
     [ destruct ((Z.of_nat a + 1) * k <? len l) eqn:Hlast; simpl;
       [ destruct (is_time_exceeded (now_after E a) rm1) as [[] rm2] eqn:Hc2; simpl;
         [| destruct (d <? 0) eqn:Hd; simpl ] | ] | | ] ].

(** An attempt found at the head of a trace, or further down. *)
Ltac attempt_here := repeat split; first [lia | congruence].

(** The attempts of the loop are the chunks in order, up to where it left;
    every attempt records the chunk it was given and what the posting of
    that chunk answered, and was made with the budget check before it
    passed; when the loop returns, what it returns is what it started with
    followed by the chunks posted with success, and it has gone through
    every chunk unless the budget flag is set. *)
Lemma post_loop_attempts (m : nat) :
  ∀ a posted rm,
  let r := post_loop E k d l (chunk_starts k a m) posted rm in
  (∃ j, (j ≤ m)%nat ∧ attempted r.1.2 = chunk k l <$> seq a j ∧
        (∀ out, r.2 = Returned out → j = m ∨ time_exceeded r.1.1 = true)) ∧
  (∀ n c o, EvAttempt n c o ∈ r.1.2 →
     (a ≤ n < a + m)%nat ∧ c = chunk k l n ∧
     o = _post_chunk_with_qrcodes E n c ∧
     time_exceeded rm = false ∧
     now_before E n - start_time rm ≤ max_seconds rm) ∧
  (∀ out, r.2 = Returned out → out = posted ++ concat (successful r.1.2)).
Proof.
  induction m as [|m IH]; intros a posted rm; cbv zeta.
  { simpl. split_and!.
    - exists 0%nat. split_and!; [lia | done | auto].
    - intros n c o []%elem_of_nil.
    - intros out [= <-]. by rewrite app_nil_r. }
  change (chunk_starts k a (S m)) with (Z.of_nat a * k :: chunk_starts k (S a) m).
  loop_turn a rm;
    try (destruct (is_time_exceeded_false _ _ _ Hc1) as (-> & Hflag & Hnow));
    try (destruct (is_time_exceeded_false _ _ _ Hc2) as (-> & _ & _)).
  - split_and!.
    + exists 0%nat. split_and!; [lia | done |]. intros _ _. right.
      change rm1 with (true, rm1).2. rewrite <- Hc1.
      apply is_time_exceeded_latches. by rewrite Hc1.
    + intros n c o [[=]|[]%elem_of_nil]%elem_of_cons.
    + intros out [= <-]. by rewrite app_nil_r.
  - split_and!.
    + exists 1%nat. split_and!; [lia | done |]. intros _ _. right.
      change rm2 with (true, rm2).2. rewrite <- Hc2.
      apply is_time_exceeded_latches. by rewrite Hc2.
    + intros n c o Hin. rewrite !elem_of_cons in Hin.
      destruct Hin as [[= -> -> ->]|[[=]|[]%elem_of_nil]]. attempt_here.
    + intros out [= <-]. by rewrite app_nil_r.
  - split_and!.
    + exists 1%nat. split_and!; [lia | done | done].
    + intros n c o [[= -> -> ->]|[]%elem_of_nil]%elem_of_cons. attempt_here.
    + done.
  - destruct (IH (S a) (posted ++ chunk k l a) rm)
      as ((j & Hj & Hatt & Hall) & Hev & Hout).
    split_and!.
    + exists (S j). split_and!; [lia | by rewrite Hatt |].
      intros out Hr. destruct (Hall out Hr); [left; lia | by right].
    + intros n c o Hin. rewrite !elem_of_cons in Hin.
      destruct Hin as [[= -> -> ->]|[[=]|Hin]]; [attempt_here|].
      destruct (Hev n c o Hin) as (? & ? & ? & ? & ?). attempt_here.
    + intros out Hr. rewrite (Hout out Hr). by rewrite <- app_assoc.
  - destruct (IH (S a) (posted ++ chunk k l a) rm)
      as ((j & Hj & Hatt & Hall) & Hev & Hout).
    split_and!.
    + exists (S j). split_and!; [lia | by rewrite Hatt |].
      intros out Hr. destruct (Hall out Hr); [left; lia | by right].
    + intros n c o Hin. rewrite !elem_of_cons in Hin.
      destruct Hin as [[= -> -> ->]|Hin]; [attempt_here|].
      destruct (Hev n c o Hin) as (? & ? & ? & ? & ?). attempt_here.
    + intros out Hr. rewrite (Hout out Hr). by rewrite <- app_assoc.
  - destruct (IH (S a) posted rm) as ((j & Hj & Hatt & Hall) & Hev & Hout).
    split_and!.
    + exists (S j). split_and!; [lia | by rewrite Hatt |].
      intros out Hr. destruct (Hall out Hr); [left; lia | by right].
    + intros n c o Hin. rewrite !elem_of_cons in Hin.
      destruct Hin as [[= -> -> ->]|[[=]|Hin]]; [attempt_here|].
      destruct (Hev n c o Hin) as (? & ? & ? & ? & ?). attempt_here.
    + intros out Hr. by rewrite (Hout out Hr).
  - split_and!.
    + exists 1%nat. split_and!; [lia | done | done].
    + intros n c o [[= -> -> ->]|[]%elem_of_nil]%elem_of_cons. attempt_here.
    + done.
Qed.

(** The order of events in a trace of the loop. *)
Lemma post_loop_discipline (m : nat) :
  ∀ a posted rm,
  let tr := (post_loop E k d l (chunk_starts k a m) posted rm).1.2 in
  head_ok tr ∧ ∀ x y, adjacent x y tr → pair_ok k d (len l) x y.
Proof.
  induction m as [|m IH]; intros a posted rm; cbv zeta.
  { simpl. split; [done|]. intros x y []%adjacent_nil. }
  change (chunk_starts k a (S m)) with (Z.of_nat a * k :: chunk_starts k (S a) m).
  loop_turn a rm;
    try match goal with
        | |- context [post_loop E k d l (chunk_starts k (S a) m) ?p ?r] =>
            destruct (IH (S a) p r) as [Hhead Hpairs];
            set (tr' := (post_loop E k d l (chunk_starts k (S a) m) p r).1.2) in *;
            clearbody tr'
        end;
    (split; [done|]); intros x y Hadj;
    rewrite ?adjacent_cons in Hadj;
    repeat match goal with
           | H : _ ∨ _ |- _ => destruct H
           | H : _ ∧ _ |- _ => destruct H
           | H : adjacent _ _ [] |- _ => by apply adjacent_nil in H
           end;
    simplify_eq/=; auto;
    try apply Z.ltb_lt in Hlast; try apply Z.ltb_ge in Hlast;
    try (destruct tr' as [|[] tr']; simplify_eq/=; done).
  - done.
Qed.

(** With the budget never exceeded, a delay that is not negative and well
    formed album answers, the loop goes through every chunk and returns. *)
Lemma post_loop_within_budget (rm : RuntimeManager) (m : nat) :
  0 ≤ d → (∀ n, album E n ≠ AlbumMalformed) → within_budget E rm →
  ∀ a posted, ∃ out tr,
    post_loop E k d l (chunk_starts k a m) posted rm = (rm, tr, Returned out) ∧
    attempted tr = chunk k l <$> seq a m.
Proof.
  intros Hd Halbum Hbudget. induction m as [|m IH]; intros a posted.
  { by exists posted, []. }
  change (chunk_starts k a (S m)) with (Z.of_nat a * k :: chunk_starts k (S a) m).
  destruct (is_time_exceeded_within E rm a Hbudget) as [Hb Ha].
  rewrite post_loop_cons. cbv zeta. rewrite Hb. simpl. rewrite Ha. simpl.
  rewrite (proj2 (Z.ltb_ge d 0)) by done.
  destruct (_post_chunk_with_qrcodes E a (chunk k l a)) as [[]|e] eqn:Hp.
  - destruct ((Z.of_nat a + 1) * k <? len l).
    + destruct (IH (S a) (posted ++ chunk k l a)) as (out & tr & -> & Hatt).
      eexists _, _. split; [done|]. simpl. by rewrite Hatt.
    + destruct (IH (S a) (posted ++ chunk k l a)) as (out & tr & -> & Hatt).
      eexists _, _. split; [done|]. simpl. by rewrite Hatt.
  - destruct (IH (S a) posted) as (out & tr & -> & Hatt).
    eexists _, _. split; [done|]. simpl. by rewrite Hatt.
  - apply post_chunk_raises in Hp. by destruct (Halbum a).
Qed.

(** post_all runs the loop over the chunk starts. *)
Lemma post_all_loop (rm : RuntimeManager) :
  l ≠ [] →
  post_all E k d l rm =
  post_loop E k d l (chunk_starts k 0 (Z.to_nat (ceil_div (len l) k))) [] rm.
Proof.
  intros Hne. unfold post_all. destruct l as [|p l']; [done|].
  rewrite py_range_chunk_starts; [done | done | unfold len; lia].
Qed.

(** What post_all inherits from its loop: the order of events, ... *)
Lemma post_all_trace (rm : RuntimeManager) :
  head_ok (post_all E k d l rm).1.2 ∧
  ∀ x y, adjacent x y (post_all E k d l rm).1.2 → pair_ok k d (len l) x y.
Proof.
  destruct (decide (l = [])) as [Hnil|Hne].
  { unfold post_all. rewrite Hnil. simpl. split; [done|].
    intros x y []%adjacent_nil. }
  rewrite post_all_loop by done. by apply post_loop_discipline.
Qed.

(** ... the prefix of chunks attempted, ... *)
Lemma post_all_prefix (rm : RuntimeManager) :
  ∃ j, (j ≤ length (chunks_of k l))%nat ∧
       attempted (post_all E k d l rm).1.2 = take j (chunks_of k l) ∧
       (∀ out, (post_all E k d l rm).2 = Returned out →
          j = length (chunks_of k l) ∨
          time_exceeded (post_all E k d l rm).1.1 = true).
Proof.
  destruct (decide (l = [])) as [Hnil|Hne].
  { exists 0%nat. unfold post_all. rewrite Hnil, chunks_of_nil by done. simpl.
    split_and!; [lia | done | auto]. }
  rewrite post_all_loop by done.
  destruct (post_loop_attempts (Z.to_nat (ceil_div (len l) k)) 0%nat [] rm)
    as ((j & Hj & Hatt & Hall) & _ & _).
  exists j. unfold chunks_of. rewrite length_fmap, length_seq.
  split_and!; [done | | done].
  rewrite Hatt, <- fmap_take, take_seq. do 2 f_equal. lia.
Qed.

(** ... what each attempt was given and answered, and what is returned. *)
Lemma post_all_attempts (rm : RuntimeManager) :
  (∀ n c o, EvAttempt n c o ∈ (post_all E k d l rm).1.2 →
     c = chunk k l n ∧ o = _post_chunk_with_qrcodes E n c ∧
     time_exceeded rm = false ∧
     now_before E n - start_time rm ≤ max_seconds rm) ∧
  (∀ out, (post_all E k d l rm).2 = Returned out →
     out = concat (successful (post_all E k d l rm).1.2)).
Proof.
  destruct (decide (l = [])) as [Hnil|Hne].
  { unfold post_all. rewrite Hnil. simpl.
    split; [by intros n c o []%elem_of_nil | by intros out [= <-]]. }
  rewrite post_all_loop by done.
  destruct (post_loop_attempts (Z.to_nat (ceil_div (len l) k)) 0%nat [] rm)
    as (_ & Hev & Hout).
  split; [|done]. intros n c o Hin.
  by destruct (Hev n c o Hin) as (_ & ? & ? & ? & ?).
Qed.

(** With the budget never exceeded and no call raising, every chunk is
    attempted and post_all returns. *)
Lemma post_all_within_budget (rm : RuntimeManager) :
  within_budget E rm → 0 ≤ d → (∀ n, album E n ≠ AlbumMalformed) →
  (∃ out, (post_all E k d l rm).2 = Returned out) ∧
  attempted (post_all E k d l rm).1.2 = chunks_of k l.
Proof.
  intros Hbudget Hd Halbum. destruct (decide (l = [])) as [Hnil|Hne].
  { unfold post_all. rewrite Hnil, chunks_of_nil by done. simpl.
    split; [by eexists | done]. }
  rewrite post_all_loop by done.
  destruct (post_loop_within_budget rm (Z.to_nat (ceil_div (len l) k))
              Hd Halbum Hbudget 0%nat []) as (out & tr & -> & Hatt).
  simpl. split; [by eexists | done].
Qed.
End PostLoop.

(** C9. For N records and chunk size K, with the budget never exceeded (and
    a delay that is not negative and well-formed album answers, so that no
    call raises), post_all returns after attempting exactly ceil(N/K) chunk
    posts, the chunks of the list in input order.  In every run the chunks
    attempted are the first ones, in order, and each was attempted with the
    budget check before it passed: once the budget has tripped, that chunk
    and the remaining ones are never attempted; if the run returns without
    having attempted them all the budget flag is set.  A chunk that was
    not attempted is not reported as failed: the warning of a failed chunk
    comes only right after a failed attempt.  After a failed chunk and its
    warning comes the next turn of the loop (its attempt, or the budget
    stop), never the delay; the delay comes only right after a successful
    attempt of a chunk that is not the last. *)
Theorem post_all_chunking (E : Env) (k d : Z) (l : list record) (rm : RuntimeManager) :
  0 < k →
  let r := post_all E k d l rm in
  let tr := r.1.2 in
  (within_budget E rm → 0 ≤ d → (∀ n, album E n ≠ AlbumMalformed) →
     (∃ out, r.2 = Returned out) ∧
     attempted tr = chunks_of k l ∧
     len (attempted tr) = ceil_div (len l) k) ∧
  (∃ j, (j ≤ length (chunks_of k l))%nat ∧
        attempted tr = take j (chunks_of k l) ∧
        (∀ out, r.2 = Returned out →
           j = length (chunks_of k l) ∨ time_exceeded r.1.1 = true)) ∧
  (∀ n c o, EvAttempt n c o ∈ tr →
     c = chunk k l n ∧ time_exceeded rm = false ∧
     now_before E n - start_time rm ≤ max_seconds rm) ∧
  (∀ pre post, tr = pre ++ EvSkipped :: post →
     ∃ pre' n c, pre = pre' ++ [EvAttempt n c (Returned false)]) ∧
  (∀ n c y, adjacent (EvAttempt n c (Returned false)) y tr → y = EvSkipped) ∧
  (∀ y, adjacent EvSkipped y tr → y = EvStop ∨ ∃ n c o, y = EvAttempt n c o) ∧
  (∀ pre d' post, tr = pre ++ EvSleep d' :: post →
     d' = d ∧
     ∃ pre' n c, pre = pre' ++ [EvAttempt n c (Returned true)] ∧
                 (Z.of_nat n + 1) * k < len l).
Proof.
  intros Hk r tr. destruct (post_all_trace E k d l Hk rm) as [Hhead Hpairs].
  fold r in Hhead, Hpairs. fold tr in Hhead, Hpairs.
  split_and!.
  - intros Hbudget Hd Halbum.
    destruct (post_all_within_budget E k d l Hk rm Hbudget Hd Halbum) as [Hret Hatt].
    split_and!; [done | done |]. subst tr r. rewrite Hatt.
    by apply length_chunks_of.
  - apply (post_all_prefix E k d l Hk rm).
  - intros n c o Hin.
    destruct (proj1 (post_all_attempts E k d l Hk rm) n c o Hin) as (? & _ & ? & ?).
    done.
  - intros pre post Heq.
    destruct (event_predecessor tr pre post EvSkipped Hhead) as (pre' & x & -> & Hadj);
      [intros H; exact H | done |].
    apply Hpairs in Hadj. destruct x as [n c [[]|]| | | |]; simpl in Hadj; try done.
    by exists pre', n, c.
  - intros n c y Hadj%Hpairs. by destruct y.
  - intros y Hadj%Hpairs. destruct y; simpl in Hadj; try done; eauto.
  - intros pre d' post Heq.
    destruct (event_predecessor tr pre post (EvSleep d') Hhead) as (pre' & x & -> & Hadj);
      [intros H; exact H | done |].
    apply Hpairs in Hadj. destruct x as [n c [[]|]| | | |]; simpl in Hadj; try done.
    destruct Hadj as [-> Hlt]. split; [done|]. by exists pre', n, c.
Qed.

(** ** What a chunk post answers *)

Lemma post_chunk_true_iff (E : Env) (n : nat) (c : list record) :
  _post_chunk_with_qrcodes E n c = Returned true ↔
  files_to_upload E 0 c ≠ [] ∧ (∃ mid, album E n = AlbumSent mid) ∧
  reply E n = ReplySent.
Proof.
  unfold _post_chunk_with_qrcodes. destruct c as [|p c]; [naive_solver|].
  destruct (files_to_upload E 0 (p :: c)); [naive_solver|].
  destruct (album E n); [naive_solver..|].
  destruct (reply E n); naive_solver.
Qed.

(** No image is uploaded for a record whose QR code could not be made. *)
Lemma files_to_upload_length (E : Env) (c : list record) :
  ∀ i, (length (files_to_upload E i c) ≤ length c)%nat ∧
       ((∃ p, p ∈ c ∧ generate E (get "tg_link" p) = None) →
        (length (files_to_upload E i c) < length c)%nat).
Proof.
  induction c as [|q c IH]; intros i; simpl.
  { split; [lia|]. by intros (p & []%elem_of_nil & _). }
  destruct (IH (S i)) as [Hle Hlt].
  destruct (negb (truthy (get "tg_link" q))); [split; intros; lia|].
  destruct (generate E (get "tg_link" q)) eqn:Hq; [|split; intros; lia].
  simpl. split; [lia|]. intros (p & [->|Hp]%elem_of_cons & Hnone); [congruence|].
  apply -> Nat.succ_lt_mono. apply Hlt. eauto.
Qed.

(** ** From the posted list to the next run *)

Lemma hash_key_truthy (v w : value) :
  hash_key v = hash_key w → truthy v = truthy w.
Proof.
  destruct v as [|[]|z|s], w as [|[]|z'|s']; simpl; intros Heq; simplify_eq; done.
Qed.

Lemma last_occurrence {A B} `{EqDecision B} (f : A → B) (l : list A) (k : B) :
  k ∈ f <$> l → ∃ l1 q l2, l = l1 ++ q :: l2 ∧ f q = k ∧ k ∉ f <$> l2.
Proof.
  induction l as [|x l IH] using rev_ind; [by intros []%elem_of_nil|].
  rewrite fmap_app. intros Hin. destruct (decide (f x = k)) as [Hx|Hx].
  - exists l, x, []. split_and!; [done | done | apply not_elem_of_nil].
  - apply elem_of_app in Hin as [Hin|Hin%list_elem_of_singleton]; [|done].
    destruct (IH Hin) as (l1 & q & l2 & -> & Hq & Hnot).
    exists l1, q, (l2 ++ [x]). split_and!; [by rewrite <- app_assoc | done |].
    rewrite fmap_app, not_elem_of_app. split; [done|].
    by intros ->%list_elem_of_singleton.
Qed.

Lemma dict_by_link_Some (l : list record) :
  ∀ d d', dict_by_link d l = Some d' → Forall (λ p, is_Some (p !! "tg_link")) l.
Proof.
  induction l as [|p l IH]; intros d d' Hd; [constructor|].
  simpl in Hd. destruct (p !! "tg_link") as [link|] eqn:Hlink; [|done].
  constructor; [by eexists | by eapply IH].
Qed.

(** Every link of the concatenation has an entry in the merged archive. *)
Lemma merge_archive_covers (existing posted final : list record) (p : record) :
  merge_archive existing posted = Some final → p ∈ existing ++ posted →
  ∃ q, q ∈ final ∧ link_key q = link_key p.
Proof.
  unfold merge_archive. intros Hmerge Hp.
  destruct (dict_by_link [] (existing ++ posted)) as [d|] eqn:Hd; [|done].
  simplify_eq/=.
  destruct (dict_by_link_spec (existing ++ posted) []) as
    (d' & Hd' & _ & Hlast & _); [split; constructor | by eapply dict_by_link_Some |].
  rewrite Hd in Hd'. simplify_eq.
  destruct (last_occurrence link_key (existing ++ posted) (link_key p))
    as (l1 & q & l2 & Heq & Hq & Hnot); [by apply list_elem_of_fmap_2|].
  exists q. split; [|done].
  apply (list_elem_of_fmap_2' snd _ (link_key q, q)); [|done].
  eapply Hlast; [done|]. by rewrite Hq.
Qed.

(** The link of an archived record with a usable link is in the set the
    next run loads. *)
Lemma load_archive_has (entries : list record) (q : record) :
  q ∈ entries → has_link q → link_key q ∈ _load_archive (Doc entries).
Proof.
  intros Hq Hl. simpl. apply elem_of_list_to_set. unfold link_key.
  apply list_elem_of_fmap_2, list_elem_of_filter. split; [done|].
  by apply (list_elem_of_fmap_2 (get "tg_link")).
Qed.

(** ** What post_all returns *)

(** C3, as amended.  The list post_all returns is the concatenation, in
    order, of the chunks whose posting answered true, and the posting of an
    attempted chunk answers true exactly when an image was made for at least
    one of its records, the album send succeeded with a result to reply to,
    and the reply send succeeded too.  A chunk whose album was sent but whose
    reply failed with an HTTP error is a failed chunk: its posting answers
    false and its records are not added to the returned list. *)
Theorem post_all_returns_fully_posted_chunks
    (E : Env) (k d : Z) (l : list record) (rm : RuntimeManager) (posted : list record) :
  0 < k →
  (post_all E k d l rm).2 = Returned posted →
  posted = concat (successful (post_all E k d l rm).1.2) ∧
  (∀ c, c ∈ successful (post_all E k d l rm).1.2 ↔
        ∃ n, EvAttempt n c (Returned true) ∈ (post_all E k d l rm).1.2) ∧
  ∀ n c o, EvAttempt n c o ∈ (post_all E k d l rm).1.2 →
    c = chunk k l n ∧
    (o = Returned true ↔
       files_to_upload E 0 c ≠ [] ∧ (∃ mid, album E n = AlbumSent mid) ∧
       reply E n = ReplySent) ∧
    (∀ mid, album E n = AlbumSent mid → reply E n = ReplyHttpError →
       o = Returned false).
Proof.
  intros Hk Hret. destruct (post_all_attempts E k d l Hk rm) as [Hev Hout].
  split_and!; [by apply Hout | apply elem_of_successful |].
  intros n c o Hin. destruct (Hev n c o Hin) as (Hc & -> & _).
  split_and!; [done | apply post_chunk_true_iff |].
  intros mid Halbum Hreply. unfold _post_chunk_with_qrcodes.
  rewrite Halbum, Hreply. destruct c; [done|]. by destruct (files_to_upload E 0 _).
Qed.

(** C10. When the QR code of a record cannot be made but its chunk still
    has an image, is attempted, and both sends succeed, the record is in the
    list post_all returns although fewer images than records were sent.
    Hence, once update_archive has merged and written that list, the
    archive holds an entry with the link of the record, the next run loads
    that link, and find_new_proxies never again returns a record carrying
    it. *)
Theorem qr_failed_record_is_posted_and_archived
    (E : Env) (k d : Z) (l : list record) (rm : RuntimeManager)
    (posted : list record) (n : nat) (c : list record) (o : result bool) (p : record) :
  0 < k →
  (post_all E k d l rm).2 = Returned posted →
  EvAttempt n c o ∈ (post_all E k d l rm).1.2 →
  p ∈ c → has_link p → generate E (get "tg_link" p) = None →
  files_to_upload E 0 c ≠ [] →
  (∃ mid, album E n = AlbumSent mid) → reply E n = ReplySent →
  p ∈ posted ∧
  (length (files_to_upload E 0 c) < length c)%nat ∧
  ∀ archive final,
    merge_archive (existing_proxies archive) posted = Some final →
    update_archive posted archive true =
      ([OpMkdir; OpOpenWrite; OpDump final], Returned tt) ∧
    (∃ q, q ∈ final ∧ link_key q = link_key p) ∧
    link_key p ∈ _load_archive (Doc final) ∧
    ∀ fetched q, q ∈ find_new_proxies (Doc final) fetched →
                 link_key q ≠ link_key p.
Proof.
  intros Hk Hret Hin Hp Hlink Hqr Hfiles Halbum Hreply.
  destruct (post_all_attempts E k d l Hk rm) as [Hev Hout].
  destruct (Hev n c o Hin) as (Hc & Ho & _).
  assert (Htrue : o = Returned true).
  { rewrite Ho. by apply post_chunk_true_iff. }
  assert (Hposted : p ∈ posted).
  { rewrite (Hout posted Hret). apply list_elem_of_In, in_concat.
    exists c. split; [|by apply list_elem_of_In].
    apply list_elem_of_In, elem_of_successful. exists n. by rewrite <- Htrue. }
  split_and!; [done | apply files_to_upload_length; eauto |].
  intros archive final Hmerge.
  destruct (merge_archive_covers _ _ _ p Hmerge) as (q & Hq & Hkey).
  { apply elem_of_app. by right. }
  assert (Hload : link_key p ∈ _load_archive (Doc final)).
  { rewrite <- Hkey. apply load_archive_has; [done|].
    unfold has_link in *. by rewrite (hash_key_truthy _ _ Hkey). }
  split_and!; [|by exists q | done |].
  - apply update_archive_steps; [|done]. intros ->. by apply elem_of_nil in Hposted.
  - intros fetched q' Hq' Heq.
    destruct (find_new_proxies_links (Doc final) fetched) as [_ Hnew].
    destruct (Hnew q' Hq') as [_ Hnot]. apply Hnot. by rewrite Heq.
Qed.

(** * Instances on sample data *)

Lemma sanitize_rebuilds_canonical_link_witness :
  sanitize full_record !! "tg_link" =
  Some (VStr "tg://proxy?server=1.2.3.4&port=443&secret=abc").
Proof.
  refine (proj1 (sanitize_rebuilds_canonical_link full_record _ _ _)).
  - reflexivity.
  - reflexivity.
  - vm_compute. discriminate.
Defined.

(** Against C2 as first stated: a record without ip that carries a link
    keeps that link, cleaned, and is returned by find_new_proxies. *)
Lemma link_without_components_is_kept :
  get "ip" link_only_record = VNone ∧
  get "tg_link" (sanitize link_only_record) =
    VStr "tg//proxy?server=1.2.3.4port=443secret=abc" ∧
  find_new_proxies NoFile [link_only_record] = [sanitize link_only_record] ∧
  find_new_proxies NoFile ([] ++ link_only_record :: []) ≠
  find_new_proxies NoFile ([] ++ []).
Proof.
  split_and!; [reflexivity | reflexivity | by vm_compute | by vm_compute].
Qed.

Lemma no_components_no_link_excluded_witness :
  find_new_proxies NoFile ([full_record] ++ bare_record :: [full_record]) =
  find_new_proxies NoFile ([full_record] ++ [full_record]).
Proof.
  refine (proj2 (proj2 (no_components_no_link_excluded bare_record _))
            _ NoFile _ _).
  - left. reflexivity.
  - reflexivity.
Defined.

Lemma time_budget_latch_witness :
  polls fresh_manager [0; 5000; 10] !! 2%nat = Some true.
Proof.
  apply (time_budget_latch fresh_manager [0; 5000; 10] 1 2).
  - lia.
  - simpl. lia.
  - reflexivity.
Defined.

(** Against C3 as first stated: the album of the only chunk is sent, the
    reply fails with an HTTP error, and post_all returns nothing: the chunk
    counts as failed. *)
Lemma album_sent_reply_failed_not_posted :
  files_to_upload reply_fails_world 0 [linked "tg://a" "A"] ≠ [] ∧
  album reply_fails_world 0 = AlbumSent 101 ∧
  reply reply_fails_world 0 = ReplyHttpError ∧
  post_all reply_fails_world 10 600 [linked "tg://a" "A"] fresh_manager =
    (fresh_manager,
     [EvAttempt 0 [linked "tg://a" "A"] (Returned false); EvSkipped],
     Returned []).
Proof.
  split_and!; [by vm_compute | reflexivity | reflexivity | by vm_compute].
Qed.

Lemma post_all_returns_fully_posted_chunks_witness :
  [linked "tg://a" "A"] =
  concat (successful
            (post_all calm_world 10 600 [linked "tg://a" "A"] fresh_manager).1.2).
Proof.
  refine (proj1 (post_all_returns_fully_posted_chunks calm_world 10 600
                   [linked "tg://a" "A"] fresh_manager [linked "tg://a" "A"] _ _)).
  - reflexivity.
  - vm_compute. reflexivity.
Defined.


(** Against C6 as first stated: dying between the opening of the archive
    and the end of the dump leaves neither the old archive nor the new one. *)
Lemma update_archive_not_crash_safe :
  ¬ crash_safe
      (update_archive [linked "tg://b" "B"] (Doc [linked "tg://a" "A"]) true).1
      (Doc [linked "tg://a" "A"]).
Proof.
  intros Hsafe. destruct (Hsafe Unloadable) as [Heq|Heq].
  - vm_compute. apply list_elem_of_further, list_elem_of_further, list_elem_of_here.
  - discriminate Heq.
  - vm_compute in Heq. discriminate Heq.
Qed.

Lemma update_archive_writes_in_place_witness :
  Unloadable ∈
  crash_states
    (update_archive [linked "tg://b" "B"] (Doc [linked "tg://a" "A"]) true).1
    (Doc [linked "tg://a" "A"]).
Proof.
  refine (proj2 (proj2 (update_archive_writes_in_place
    [linked "tg://b" "B"] (Doc [linked "tg://a" "A"])
    [linked "tg://a" "A"; linked "tg://b" "B"] _ _))).
  - discriminate.
  - vm_compute. reflexivity.
Defined.

Lemma post_all_chunking_witness :
  len (attempted (post_all calm_world 2 600 five_records fresh_manager).1.2) = 3.
Proof.
  refine (proj2 (proj2 (proj1
    (post_all_chunking calm_world 2 600 five_records fresh_manager _) _ _ _))).
  - reflexivity.
  - split; [reflexivity | intros n; simpl; lia].
  - lia.
  - intros n. simpl. discriminate.
Defined.

Lemma qr_failed_record_is_posted_and_archived_witness :
  linked "tg://b" "B" ∈ five_records ∧
  ∀ fetched q,
    q ∈ find_new_proxies (Doc five_records) fetched →
    link_key q ≠ link_key (linked "tg://b" "B").
Proof.
  destruct (qr_failed_record_is_posted_and_archived qr_fails_world 3 600
              five_records fresh_manager five_records
              0 [linked "tg://a" "A"; linked "tg://b" "B"; linked "tg://c" "C"]
              (Returned true) (linked "tg://b" "B"))
    as (Hposted & _ & Harchive).
  - reflexivity.
  - vm_compute. reflexivity.
  - vm_compute. apply list_elem_of_here.
  - apply list_elem_of_further, list_elem_of_here.
  - reflexivity.
  - reflexivity.
  - vm_compute. discriminate.
  - exists 101. reflexivity.
  - reflexivity.
  - split; [exact Hposted|].
    destruct (Harchive NoFile five_records) as (_ & _ & _ & Hnever).
    + vm_compute. reflexivity.
    + exact Hnever.
Defined.

(** * Further properties of the pipeline *)

(** ** Cleaning *)

Lemma re_sub_class_chars (bad : list ascii) (s : string) :
  String.list_ascii_of_string (re_sub_class bad s) =
  filter (λ c, c ∉ bad) (String.list_ascii_of_string s).
Proof.
  induction s as [|c s IH]; [done|]. simpl.
  case_bool_decide as Hc.
  - rewrite filter_cons_False by (by intros ?). done.
  - rewrite filter_cons_True by done. simpl. by rewrite IH.
Qed.

Lemma re_sub_class_fixed (bad : list ascii) (s : string) :
  Forall (λ c, c ∉ bad) (String.list_ascii_of_string s) → re_sub_class bad s = s.
Proof.
  induction s as [|c s IH]; [done|]. simpl. intros [Hc Hs]%Forall_cons.
  rewrite bool_decide_eq_false_2 by done. by rewrite IH.
Qed.

Lemma re_sub_class_clean (bad : list ascii) (s : string) :
  Forall (λ c, c ∉ bad) (String.list_ascii_of_string (re_sub_class bad s)).
Proof.
  rewrite re_sub_class_chars. apply Forall_forall.
  by intros c [Hc _]%list_elem_of_filter.
Qed.

Lemma re_sub_class_idemp (bad : list ascii) (s : string) :
  re_sub_class bad (re_sub_class bad s) = re_sub_class bad s.
Proof. apply re_sub_class_fixed, re_sub_class_clean. Qed.


(** ** Sanitizing twice *)

Lemma get_Some (k : string) (q : record) (s : string) :
  get k q = VStr s → q !! k = Some (VStr s).
Proof. unfold get. destruct (q !! k); simpl; [by intros ->|done]. Qed.

Lemma clean_field_id (k : string) (q : record) :
  clean_or_falsy (get k q) →
  (if truthy (get k q) then <[k := VStr (_clean_string (get k q))]> q else q) = q.
Proof.
  intros [Hf|(s & Hs & Hclean)]; [by rewrite Hf|].
  destruct (truthy (get k q)); [|done].
  rewrite Hs. simpl. rewrite Hclean. by apply insert_id, get_Some.
Qed.

Lemma clean_or_falsy_cleaned (v : value) :
  clean_or_falsy (if truthy v then VStr (_clean_string v) else v).
Proof.
  destruct (truthy v) eqn:Ht; [|by left].
  right. eexists. split; [done|].
  destruct v; simpl; try done. apply re_sub_class_idemp.
Qed.

Lemma link_template_truthy (ip port secret : value) :
  truthy (VStr (link_template ip port secret)) = true.
Proof. done. Qed.

Lemma sanitized_fixed (q : record) : sanitized q → sanitize q = q.
Proof.
  intros [Hsecret Hlink]. unfold sanitize.
  assert (H1 : clean_secret q = q) by (by apply clean_field_id).
  rewrite H1.
  destruct (truthy (get "ip" q) && truthy (get "port" q) && truthy (get "secret" q))
    eqn:Hcomp.
  - unfold clean_tg_link. rewrite Hlink, link_template_truthy.
    unfold rebuild_tg_link.
    rewrite !(get_insert_ne "tg_link") by done. rewrite Hcomp, get_insert_eq.
    case_bool_decide as Hd.
    + rewrite insert_insert_eq. by apply insert_id, get_Some.
    + rewrite <- Hd. by apply insert_id, get_Some.
  - assert (H2 : clean_tg_link q = q) by (by apply clean_field_id).
    rewrite H2. unfold rebuild_tg_link. by rewrite Hcomp.
Qed.

Lemma sanitize_sanitized (p : record) : sanitized (sanitize p).
Proof.
  destruct (sanitize_components p) as (Ei & Ep & Es & El).
  assert (Hs : get "secret" (sanitize p) = get "secret" (clean_secret p)).
  { unfold sanitize. by rewrite get_rebuild_other, Es. }
  assert (Hi : get "ip" (sanitize p) = get "ip" p).
  { unfold sanitize. by rewrite get_rebuild_other, Ei. }
  assert (Hp : get "port" (sanitize p) = get "port" p).
  { unfold sanitize. by rewrite get_rebuild_other, Ep. }
  split.
  - rewrite Hs. unfold clean_secret.
    pose proof (clean_or_falsy_cleaned (get "secret" p)) as Hc.
    destruct (truthy (get "secret" p)); [by rewrite get_insert_eq | done].
  - assert (Hl : get "tg_link" (sanitize p) =
      if truthy (get "ip" p) && truthy (get "port" p)
         && truthy (get "secret" (clean_secret p))
      then VStr (link_template (get "ip" p) (get "port" p)
                   (get "secret" (clean_secret p)))
      else get "tg_link" (clean_tg_link p)).
    { unfold sanitize. by rewrite get_rebuild_tg_link, Ei, Ep, Es, El. }
    rewrite Hs, Hi, Hp, Hl.
    destruct (truthy (get "ip" p) && truthy (get "port" p)
              && truthy (get "secret" (clean_secret p))); [done|].
    unfold clean_tg_link.
    pose proof (clean_or_falsy_cleaned (get "tg_link" p)) as Hc.
    destruct (truthy (get "tg_link" p)); [by rewrite get_insert_eq | done].
Qed.

(** Sanitizing is idempotent: a record that went through the three steps
    comes out of them unchanged, so that a second pass over the mutated
    records rewrites nothing. *)
Theorem sanitize_idempotent (proxy : record) :
  sanitize (sanitize proxy) = sanitize proxy.
Proof. apply sanitized_fixed, sanitize_sanitized. Qed.

(** ** What find_new_proxies returns *)

Lemma fmap_fixed {A} (f : A → A) (l : list A) :
  (∀ x, x ∈ l → f x = x) → f <$> l = l.
Proof.
  induction l as [|x l IH]; intros Hf; [done|]. rewrite fmap_cons.
  rewrite Hf by apply list_elem_of_here. f_equal. apply IH.
  intros y Hy. apply Hf. by apply list_elem_of_further.
Qed.

Lemma filter_fixed {A} (P : A → Prop) `{!∀ x, Decision (P x)} (l : list A) :
  (∀ x, x ∈ l → P x) → filter P l = l.
Proof.
  induction l as [|x l IH]; intros HP; [done|].
  rewrite filter_cons_True by (apply HP, list_elem_of_here).
  f_equal. apply IH. intros y Hy. apply HP. by apply list_elem_of_further.
Qed.

Lemma find_new_proxies_sublist (archive : file_state) (fetched : list record) :
  find_new_proxies archive fetched `sublist_of` (sanitize <$> fetched).
Proof.
  induction fetched as [|p l IH] using rev_ind; [done|].
  rewrite find_new_proxies_snoc_cases, fmap_app. case_decide.
  - by apply sublist_app.
  - by apply sublist_inserts_r.
Qed.

Lemma find_new_proxies_elem (archive : file_state) (fetched : list record) (q : record) :
  q ∈ find_new_proxies archive fetched → ∃ p, p ∈ fetched ∧ q = sanitize p.
Proof.
  intros Hq. eapply elem_of_sublist in Hq; [|apply find_new_proxies_sublist].
  apply list_elem_of_fmap in Hq as (p & -> & Hp). eauto.
Qed.

(** Every record find_new_proxies returns is the sanitized form of a fetched
    record and sanitizing it again changes nothing; the returned records
    stand in fetch order; and the link of each is a string that is not
    empty: either the template over the record's own ip, port and secret,
    or a string without any forbidden character. *)
Theorem find_new_proxies_returns_sanitized_records
    (archive : file_state) (fetched : list record) :
  find_new_proxies archive fetched `sublist_of` (sanitize <$> fetched) ∧
  ∀ q, q ∈ find_new_proxies archive fetched →
    (∃ p, p ∈ fetched ∧ q = sanitize p) ∧
    sanitize q = q ∧
    ∃ s, q !! "tg_link" = Some (VStr s) ∧ s ≠ "" ∧
         (s = link_template (get "ip" q) (get "port" q) (get "secret" q) ∨
          Forall (λ c, c ∉ invalid_chars) (String.list_ascii_of_string s)).
Proof.
  split; [apply find_new_proxies_sublist|]. intros q Hq.
  destruct (find_new_proxies_elem _ _ _ Hq) as (p & Hp & ->).
  destruct (find_new_proxies_links archive fetched) as [_ Hlinks].
  destruct (Hlinks _ Hq) as [Hhas _].
  split_and!; [by eauto | apply sanitize_idempotent|].
  destruct (sanitize_sanitized p) as [_ Hlink]. unfold has_link in Hhas.
  destruct (truthy (get "ip" (sanitize p)) && truthy (get "port" (sanitize p))
            && truthy (get "secret" (sanitize p))).
  - eexists. split_and!; [by apply get_Some | | by left].
    by apply truthy_str, link_template_truthy.
  - destruct Hlink as [Hf|(s & Hs & Hclean)]; [congruence|].
    exists s. split_and!; [by apply get_Some | |].
    + apply truthy_str. by rewrite <- Hs.
    + right. rewrite <- Hclean. apply re_sub_class_clean.
Qed.

Lemma first_occurrences_fixed (A : gset hkey) (out : list record) :
  ∀ earlier,
    NoDup (link_key <$> out) →
    (∀ q, q ∈ out → (link_key q ∉ A) ∧ (link_key q ∉ earlier)) →
    first_occurrences A earlier out = out.
Proof.
  induction out as [|q out IH]; intros earlier Hnd Hout; [done|].
  rewrite fmap_cons in Hnd. apply NoDup_cons in Hnd as [Hq Hnd].
  destruct (Hout q) as [HA He]; [apply list_elem_of_here|].
  simpl. rewrite !bool_decide_eq_true_2 by done. simpl. f_equal.
  apply IH; [done|]. intros q' Hq'.
  destruct (Hout q') as [HA' He']; [by apply list_elem_of_further|].
  split; [done|]. rewrite not_elem_of_union. split; [done|].
  intros Heq%elem_of_singleton. apply Hq. rewrite <- Heq.
  by apply list_elem_of_fmap_2.
Qed.

Lemma find_new_proxies_first_occurrences (archive : file_state) (l : list record) :
  find_new_proxies archive l =
  first_occurrences (_load_archive archive) ∅ (filter has_link (sanitize <$> l)).
Proof. unfold find_new_proxies. by rewrite (fold_first_occurrences _ _ [] ∅ ∅). Qed.

(** Filtering is idempotent: find_new_proxies returns its own output
    unchanged, and a second call on the fetched list as the first call left
    it (every record mutated in place) returns what the first returned. *)
Theorem find_new_proxies_idempotent (archive : file_state) (fetched : list record) :
  find_new_proxies archive (find_new_proxies archive fetched) =
    find_new_proxies archive fetched ∧
  find_new_proxies archive (sanitize <$> fetched) =
    find_new_proxies archive fetched.
Proof.
  split.
  - destruct (find_new_proxies_links archive fetched) as [Hnd Hlinks].
    rewrite (find_new_proxies_first_occurrences archive (find_new_proxies _ _)).
    rewrite fmap_fixed.
    + rewrite filter_fixed by (intros q Hq; by apply Hlinks).
      apply first_occurrences_fixed; [done|]. intros q Hq.
      split; [by apply Hlinks | apply not_elem_of_empty].
    + intros q Hq. destruct (find_new_proxies_elem _ _ _ Hq) as (p & _ & ->).
      apply sanitize_idempotent.
  - rewrite !find_new_proxies_first_occurrences. do 2 f_equal.
    rewrite <- list_fmap_compose. apply list_fmap_ext.
    intros _ p _. apply sanitize_idempotent.
Qed.

(** ** When the budget trips *)

Lemma is_time_exceeded_spec (now : Z) (self : RuntimeManager) :
  (is_time_exceeded now self).1 =
    time_exceeded self || (max_seconds self <? now - start_time self) ∧
  start_time (is_time_exceeded now self).2 = start_time self ∧
  max_seconds (is_time_exceeded now self).2 = max_seconds self ∧
  time_exceeded (is_time_exceeded now self).2 = (is_time_exceeded now self).1.
Proof.
  unfold is_time_exceeded. rewrite Z.gtb_ltb.
  destruct (time_exceeded self) eqn:Hflag; [done|].
  by destruct (max_seconds self <? now - start_time self).
Qed.

(** The answers of successive polls: the call number j answers true exactly
    when the flag was set beforehand or one of the readings up to that call
    was strictly more than max_seconds after start_time.  A reading exactly
    at the limit does not trip the budget. *)
Theorem polls_true_iff (self : RuntimeManager) (clock : list Z) (j : nat) :
  polls self clock !! j = Some true ↔
  (j < length clock)%nat ∧
  (time_exceeded self = true ∨
   ∃ i now, (i ≤ j)%nat ∧ clock !! i = Some now ∧
            max_seconds self < now - start_time self).
Proof.
  revert self j. induction clock as [|now later IH]; intros self j.
  { simpl. split; [done | intros [? _]; lia]. }
  destruct (is_time_exceeded_spec now self) as (Hans & Hstart & Hmax & Hflag).
  simpl. destruct j as [|j]; simpl.
  - rewrite Hans. split.
    + intros [= Hb]. split; [lia|].
      apply orb_true_iff in Hb as [Hb|Hb%Z.ltb_lt]; [by left|].
      right. exists 0%nat, now. by split_and!.
    + intros [_ [Hb|(i & now' & Hi & Hnow & Hlt)]]; f_equal.
      * by rewrite Hb.
      * destruct i; [|lia]. simpl in Hnow. simplify_eq.
        apply orb_true_iff. right. by apply Z.ltb_lt.
  - rewrite IH, Hstart, Hmax, Hflag, Hans. split.
    + intros [Hj [Hb|(i & now' & Hi & Hnow & Hlt)]]; (split; [lia|]).
      * apply orb_true_iff in Hb as [Hb|Hb%Z.ltb_lt]; [by left|].
        right. exists 0%nat, now. split_and!; [lia|done|done].
      * right. exists (S i), now'. split_and!; [lia|done|done].
    + intros [Hj [Hb|(i & now' & Hi & Hnow & Hlt)]]; (split; [lia|]).
      * left. by rewrite Hb.
      * destruct i as [|i]; simpl in Hnow.
        -- simplify_eq. left. apply orb_true_iff. right. by apply Z.ltb_lt.
        -- right. exists i, now'. split_and!; [lia|done|done].
Qed.

(** ** Chunks cover the list *)

Lemma ceil_div_bounds (n k : Z) :
  0 < k → 0 ≤ n → n ≤ ceil_div n k * k ∧ (ceil_div n k - 1) * k < n ∨ n = 0.
Proof.
  intros Hk Hn. unfold ceil_div.
  pose proof (Z.div_mod n k ltac:(lia)) as Hdm.
  pose proof (Z.mod_pos_bound n k Hk) as Hmod.
  destruct (Z.eqb_spec (n mod k) 0) as [Hz|Hz].
  - destruct (Z.eq_dec n 0) as [->|Hn0]; [by right|]. left. nia.
  - left. nia.
Qed.

Lemma concat_chunks (k : Z) (l : list record) (m : nat) :
  concat (chunk k l <$> seq 0 m) = take (m * Z.to_nat k) l.
Proof.
  induction m as [|m IH]; [done|].
  rewrite seq_S, fmap_app, concat_app, IH. simpl. rewrite app_nil_r.
  unfold chunk. rewrite take_take_drop. f_equal. lia.
Qed.

Lemma concat_chunks_of (k : Z) (l : list record) :
  0 < k → concat (chunks_of k l) = l.
Proof.
  intros Hk. unfold chunks_of. rewrite concat_chunks. apply take_ge.
  unfold len.
  pose proof (ceil_div_nonneg (Z.of_nat (length l)) k Hk ltac:(lia)) as Hpos.
  destruct (ceil_div_bounds (Z.of_nat (length l)) k Hk ltac:(lia)) as [[Hle _]|Hz];
    [nia | lia].
Qed.

Lemma chunks_of_sizes (k : Z) (l : list record) :
  0 < k →
  Forall (λ c, c ≠ [] ∧ (length c ≤ Z.to_nat k)%nat) (chunks_of k l).
Proof.
  intros Hk. apply Forall_forall. intros c Hc.
  apply list_elem_of_fmap in Hc as (n & -> & Hn%elem_of_seq).
  unfold chunk. split.
  - intros Hnil%(f_equal length). rewrite length_take, length_drop in Hnil.
    simpl in Hnil. unfold len in Hn.
    pose proof (ceil_div_nonneg (Z.of_nat (length l)) k Hk ltac:(lia)) as Hpos.
    destruct (ceil_div_bounds (Z.of_nat (length l)) k Hk ltac:(lia)) as [[_ Hlt]|Hz].
    + assert (Z.of_nat n * k < Z.of_nat (length l)) by nia.
      assert (n * Z.to_nat k < length l)%nat by nia. lia.
    + rewrite Hz, ceil_div_0 in Hn by done. simpl in Hn. lia.
  - rewrite length_take. lia.
Qed.

Lemma elem_of_attempted (tr : list event) (c : list record) :
  c ∈ attempted tr ↔ ∃ n o, EvAttempt n c o ∈ tr.
Proof.
  unfold attempted. rewrite list_elem_of_omap. split.
  - intros (e & He & Heq). destruct e; simplify_eq. eauto.
  - intros (n & o & Hn). by exists (EvAttempt n c o).
Qed.

Lemma concat_successful_sublist (tr : list event) :
  concat (successful tr) `sublist_of` concat (attempted tr).
Proof.
  induction tr as [|e tr IH]; [done|].
  destruct e as [n c [[]|]| | | |]; simpl; try done.
  - by apply sublist_app.
  - by apply sublist_inserts_l.
  - by apply sublist_inserts_l.
Qed.

Lemma successful_all (tr : list event) :
  (∀ n c o, EvAttempt n c o ∈ tr → o = Returned true) →
  successful tr = attempted tr.
Proof.
  induction tr as [|e tr IH]; intros Hall; [done|].
  assert (Htl : successful tr = attempted tr).
  { apply IH. intros n c o Hin. eapply Hall. by apply list_elem_of_further. }
  destruct e as [n c o| | | |]; simpl; try done.
  - rewrite (Hall n c o) by apply list_elem_of_here. simpl. by rewrite Htl.
Qed.

(** In every run with a positive chunk size, each chunk post_all attempts
    has at least one record and at most proxies_per_post of them, and the
    attempted chunks laid end to end are an initial part of the list: no
    record is skipped, repeated or moved.  When the budget is never exceeded
    and nothing raises they are the whole list. *)
Theorem post_all_attempts_cover_a_prefix
    (E : Env) (k d : Z) (l : list record) (rm : RuntimeManager) :
  0 < k →
  Forall (λ c, c ≠ [] ∧ (length c ≤ Z.to_nat k)%nat)
         (attempted (post_all E k d l rm).1.2) ∧
  concat (attempted (post_all E k d l rm).1.2) `prefix_of` l ∧
  (within_budget E rm → 0 ≤ d → (∀ n, album E n ≠ AlbumMalformed) →
   concat (attempted (post_all E k d l rm).1.2) = l).
Proof.
  intros Hk. destruct (post_all_prefix E k d l Hk rm) as (j & Hj & Hatt & _).
  split_and!.
  - rewrite Hatt. apply Forall_take. by apply chunks_of_sizes.
  - rewrite Hatt. unfold chunks_of. rewrite <- fmap_take, take_seq, concat_chunks.
    apply prefix_take.
  - intros Hbudget Hd Halbum.
    destruct (post_all_within_budget E k d l Hk rm Hbudget Hd Halbum) as [_ ->].
    by apply concat_chunks_of.
Qed.

(** What post_all returns is made of records it was given, in the order it
    was given them, each at most as often as it was given: it never adds,
    repeats or reorders a record. *)
Theorem post_all_returns_sublist
    (E : Env) (k d : Z) (l : list record) (rm : RuntimeManager) (posted : list record) :
  0 < k → (post_all E k d l rm).2 = Returned posted → posted `sublist_of` l.
Proof.
  intros Hk Hret. destruct (post_all_attempts E k d l Hk rm) as [_ Hout].
  rewrite (Hout posted Hret).
  etrans; [apply concat_successful_sublist|].
  destruct (post_all_prefix E k d l Hk rm) as (j & Hj & Hatt & _).
  rewrite Hatt. unfold chunks_of. rewrite <- fmap_take, take_seq, concat_chunks.
  apply sublist_take.
Qed.

(** When the budget is never exceeded, the delay is not negative, and every
    chunk gets at least one QR image, a sent album and a sent reply,
    post_all returns exactly the list it was given. *)
Theorem post_all_posts_everything
    (E : Env) (k d : Z) (l : list record) (rm : RuntimeManager) :
  0 < k → 0 ≤ d → within_budget E rm →
  (∀ c, c ∈ chunks_of k l → files_to_upload E 0 c ≠ []) →
  (∀ n, ∃ mid, album E n = AlbumSent mid) →
  (∀ n, reply E n = ReplySent) →
  (post_all E k d l rm).2 = Returned l.
Proof.
  intros Hk Hd Hbudget Hqr Halbum Hreply.
  destruct (post_all_within_budget E k d l Hk rm Hbudget Hd) as [[out Hret] Hatt].
  { intros n. destruct (Halbum n) as [mid ->]. done. }
  destruct (post_all_attempts E k d l Hk rm) as [Hev Hout].
  rewrite Hret. f_equal. rewrite (Hout out Hret), successful_all.
  - rewrite Hatt. by apply concat_chunks_of.
  - intros n c o Hin. destruct (Hev n c o Hin) as (_ & -> & _).
    apply post_chunk_true_iff. split_and!; [|done..].
    apply Hqr. rewrite <- Hatt. apply elem_of_attempted. eauto.
Qed.

Lemma post_all_attempts_cover_a_prefix_witness :
  concat (attempted (post_all calm_world 2 600 five_records fresh_manager).1.2)
  = five_records.
Proof.
  refine (proj2 (proj2 (post_all_attempts_cover_a_prefix
            calm_world 2 600 five_records fresh_manager _)) _ _ _).
  - reflexivity.
  - split; [reflexivity | intros n; simpl; lia].
  - lia.
  - intros n. simpl. discriminate.
Defined.

Lemma post_all_returns_sublist_witness :
  [linked "tg://c" "C"; linked "tg://d" "D"] `sublist_of`
  [linked "tg://a" "A"; linked "tg://b" "B"; linked "tg://c" "C"; linked "tg://d" "D"].
Proof.
  apply (post_all_returns_sublist
           {| now_before := λ _, 0; now_after := λ _, 0;
              qr_make := λ _, Some "png";
              album := λ n, if decide (n = 0%nat) then AlbumHttpError
                            else AlbumSent 101;
              reply := λ _, ReplySent |}
           2 600
           [linked "tg://a" "A"; linked "tg://b" "B"; linked "tg://c" "C";
            linked "tg://d" "D"]
           fresh_manager).
  - reflexivity.
  - vm_compute. reflexivity.
Defined.

Lemma post_all_posts_everything_witness :
  (post_all calm_world 2 600 five_records fresh_manager).2 = Returned five_records.
Proof.
  apply post_all_posts_everything.
  - reflexivity.
  - lia.
  - split; [reflexivity | intros n; simpl; lia].
  - intros c Hc. vm_compute in Hc.
    repeat (apply elem_of_cons in Hc as [->|Hc]; [vm_compute; discriminate|]).
    by apply elem_of_nil in Hc.
  - intros n. by exists 101.
  - intros n. reflexivity.
Defined.

(** ** Edge cases of post_all *)

Lemma range_go_backwards (fuel : nat) (stop step : Z) :
  step < 0 → 0 ≤ stop → range_go fuel 0 stop step = [].
Proof.
  intros Hstep Hstop. destruct fuel as [|fuel]; [done|]. simpl.
  destruct (Z.ltb_spec 0 step); [lia|].
  destruct (Z.ltb_spec stop 0); [lia|done].
Qed.

(** An empty list is answered with an empty list before the chunk size is
    even looked at; with records to post, a chunk size of zero makes the
    range raise ValueError before any chunk is attempted, and a negative
    chunk size makes the range empty, so that post_all returns an empty
    list without attempting anything. *)
Theorem post_all_degenerate_chunk_size
    (E : Env) (k d : Z) (l : list record) (rm : RuntimeManager) :
  post_all E k d [] rm = (rm, [], Returned []) ∧
  (l ≠ [] → k = 0 → post_all E k d l rm = (rm, [], Raised ValueError)) ∧
  (l ≠ [] → k < 0 → post_all E k d l rm = (rm, [], Returned [])).
Proof.
  split_and!; [done | |].
  - intros Hne ->. destruct l; [done|]. done.
  - intros Hne Hk. destruct l as [|p l]; [done|].
    unfold post_all, py_range. destruct (Z.eqb_spec k 0); [lia|].
    rewrite range_go_backwards; [done | done | unfold len; lia].
Qed.

(** With the budget flag already set when post_all is entered, nothing is
    attempted: the run is the budget stop alone, the returned list is empty
    and the manager is as it was. *)
Theorem post_all_budget_already_spent
    (E : Env) (k d : Z) (l : list record) (rm : RuntimeManager) :
  0 < k → l ≠ [] → time_exceeded rm = true →
  post_all E k d l rm = (rm, [EvStop], Returned []).
Proof.
  intros Hk Hne Hflag. rewrite post_all_loop by done.
  assert (Hpos : (0 < Z.to_nat (ceil_div (len l) k))%nat).
  { unfold len.
    destruct (ceil_div_bounds (Z.of_nat (length l)) k Hk ltac:(lia)) as [[Hle _]|Hz].
    - destruct l; [done|]. simpl in *. nia.
    - destruct l; [done|]. simpl in Hz. lia. }
  destruct (Z.to_nat (ceil_div (len l) k)) as [|m]; [lia|].
  change (chunk_starts k 0 (S m)) with (Z.of_nat 0 * k :: chunk_starts k 1 m).
  rewrite post_loop_cons by done. cbv zeta.
  by rewrite is_time_exceeded_once_set.
Qed.

Lemma post_all_budget_already_spent_witness :
  post_all calm_world 2 600 five_records
    {| start_time := 0; max_seconds := 3300; time_exceeded := true |} =
  ({| start_time := 0; max_seconds := 3300; time_exceeded := true |},
   [EvStop], Returned []).
Proof.
  apply post_all_budget_already_spent.
  - reflexivity.
  - discriminate.
  - reflexivity.
Defined.

(** ** More on the merge of update_archive *)

Lemma dict_set_fresh (k : hkey) (v : record) (d : list (hkey * record)) :
  k ∉ d.*1 → dict_set k v d = d ++ [(k, v)].
Proof.
  induction d as [|[k' v'] d IH]; [done|]. rewrite fmap_cons. simpl.
  intros [Hne Hnot]%not_elem_of_cons.
  rewrite decide_False by done. by rewrite IH.
Qed.

Lemma dict_by_link_fresh (l : list record) :
  ∀ d, Forall (λ p, is_Some (p !! "tg_link")) l →
       NoDup (d.*1 ++ (link_key <$> l)) →
       dict_by_link d l = Some (d ++ ((λ p, (link_key p, p)) <$> l)).
Proof.
  induction l as [|p l IH]; intros d Hkeys Hnd.
  { by rewrite app_nil_r. }
  apply Forall_cons in Hkeys as [[link Hlink] Hkeys]. csimpl. rewrite Hlink.
  rewrite fmap_cons in Hnd. apply NoDup_app in Hnd as (Hd & Hdisj & Hl).
  apply NoDup_cons in Hl as [Hp Hl].
  rewrite (link_key_lookup _ _ Hlink), dict_set_fresh.
  - rewrite IH; [by rewrite <- app_assoc | done |].
    rewrite fmap_app. simpl. rewrite <- app_assoc. simpl.
    apply NoDup_app. split_and!; [done | | by apply NoDup_cons].
    intros x Hx. apply Hdisj in Hx. done.
  - intros Hin. apply (Hdisj _ Hin). apply list_elem_of_here.
Qed.

(** When no two records of existing ++ posted share a link, which is the
    case when the archive has one entry per link and the posted records come
    out of find_new_proxies against that archive, the merged archive is the
    existing entries followed by the posted records, in order. *)
Theorem merge_archive_appends (existing posted : list record) :
  Forall (λ p, is_Some (p !! "tg_link")) (existing ++ posted) →
  NoDup (link_key <$> (existing ++ posted)) →
  merge_archive existing posted = Some (existing ++ posted).
Proof.
  intros Hkeys Hnd. unfold merge_archive.
  rewrite dict_by_link_fresh by done. simpl. f_equal.
  rewrite <- list_fmap_compose. apply list_fmap_id.
Qed.

Lemma merge_archive_appends_witness :
  merge_archive [linked "tg://a" "A"] [linked "tg://b" "B"; linked "tg://c" "C"] =
  Some ([linked "tg://a" "A"] ++ [linked "tg://b" "B"; linked "tg://c" "C"]).
Proof.
  apply merge_archive_appends.
  - repeat constructor; vm_compute; eexists; reflexivity.
  - refine (bool_decide_unpack _ _). vm_compute. exact I.
Defined.
